(** * pathfmt: path templates with named placeholders

    A shallow embedding of the Go package [pathfmt] and the proofs of the
    properties its specification states.  The repository holds two
    revisions of the package:

    - [src/format.go]: the _strict_ one.  A template is a list of [part]s
      (static text or a variable name), [ToMap] returns an error when a
      static part differs from the path, and [FromStruct] renders a path.
    - [src/unnamed/part_000]: the _lenient_ one.  A template only records
      its named parts with their index, and [ToMap] never fails.

    Both share, line for line, the reflective loop of [ToStruct]. *)

From Stdlib Require Import Ascii ZArith.
From Stdlib Require String.
From stdpp Require Import base option list sorting strings pretty gmap fin_maps.

Local Open Scope Z_scope.
Local Open Scope nat_scope.

(** ** Go's [strings] package, as far as the package calls it

    Go strings are byte sequences; [string] is a list of [ascii] bytes. *)

Module Strings.

(** [len(s) >= len(prefix) && s[:len(prefix)] == prefix] *)
Definition HasPrefix (s pre : string) : bool :=
  bool_decide (String.length pre ≤ String.length s) &&
  bool_decide (String.substring 0 (String.length pre) s = pre).

(** [len(s) >= len(suffix) && s[len(s)-len(suffix):] == suffix] *)
Definition HasSuffix (s suf : string) : bool :=
  bool_decide (String.length suf ≤ String.length s) &&
  bool_decide (String.substring (String.length s - String.length suf)
                 (String.length suf) s = suf).

(** [if HasPrefix(s, prefix) { return s[len(prefix):] }; return s] *)
Definition TrimPrefix (s pre : string) : string :=
  if HasPrefix s pre
  then String.substring (String.length pre)
         (String.length s - String.length pre) s
  else s.

(** [if HasSuffix(s, suffix) { return s[:len(s)-len(suffix)] }; return s] *)
Definition TrimSuffix (s suf : string) : string :=
  if HasSuffix s suf
  then String.substring 0 (String.length s - String.length suf) s
  else s.

(** [Split(s, sep)] for a one-byte separator: the pieces between the
    occurrences of [sep]; one more piece than there are separators, so the
    empty string gives one empty piece. *)
Fixpoint Split (s : string) (sep : ascii) : list string :=
  match s with
  | EmptyString => [EmptyString]
  | String a s' =>
      if decide (a = sep) then EmptyString :: Split s' sep
      else match Split s' sep with
           | t :: ts => String a t :: ts
           | [] => [String a EmptyString]
           end
  end.

(** [Join(elems, sep)] *)
Fixpoint Join (elems : list string) (sep : string) : string :=
  match elems with
  | [] => ""
  | [x] => x
  | x :: rest => x +:+ sep +:+ Join rest sep
  end.

(** [strings.Contains(s, string(c))] for one byte. *)
Fixpoint ContainsByte (s : string) (c : ascii) : bool :=
  match s with
  | EmptyString => false
  | String a s' => bool_decide (a = c) || ContainsByte s' c
  end.

End Strings.

(** [func split(s string) []string], the same in both revisions. *)
Definition split (s : string) : list string :=
  Strings.Split (Strings.TrimPrefix s "/") "/"%char.

(** The test [strings.HasPrefix(s, "{") && strings.HasSuffix(s, "}")] of [New]. *)
Definition braced (s : string) : bool :=
  Strings.HasPrefix s "{" && Strings.HasSuffix s "}".

(** [strings.TrimSuffix(strings.TrimPrefix(s, "{"), "}")] *)
Definition unbrace (s : string) : string :=
  Strings.TrimSuffix (Strings.TrimPrefix s "{") "}".

(** ** Go's [reflect] and [strconv], as far as the package calls them *)

Module reflect.

(** [reflect.Kind] *)
Inductive Kind :=
| Invalid | Bool
| Int | Int8 | Int16 | Int32 | Int64
| Uint | Uint8 | Uint16 | Uint32 | Uint64 | Uintptr
| Float32 | Float64 | Complex64 | Complex128
| Array | Chan | Func | Interface | Map | Pointer | Slice
| String | Struct | UnsafePointer.

#[global] Instance Kind_eq_dec : EqDecision Kind.
Proof. solve_decision. Defined.

(** [strconv.IntSize] on the 64-bit platforms Go targets by default. *)
Definition IntSize : nat := 64.

(** [Type.Bits()], for the kinds [ToStruct] asks it of. *)
Definition Bits (k : Kind) : nat :=
  match k with
  | Int | Uint | Uintptr => IntSize
  | Int8 | Uint8 => 8
  | Int16 | Uint16 => 16
  | Int32 | Uint32 | Float32 => 32
  | Int64 | Uint64 | Float64 | Complex64 => 64
  | Complex128 => 128
  | _ => 0
  end.

End reflect.

(** The value a struct field holds.  Integers are mathematical integers in
    the range of the field's width, a float is its IEEE 754 bit pattern, and
    a value of any other kind is known by its [%v] rendering only. *)
Inductive value :=
| VBool (b : bool)
| VInt (i : Z)
| VUint (u : Z)
| VFloat (bits : Z)
| VString (s : string)
| VOther (rendering : string).

#[global] Instance value_eq_dec : EqDecision value.
Proof. solve_decision. Defined.

(** One field of a struct value: [reflect.StructField] together with the
    [reflect.Value] of the field.  [Tag] is what the struct tag holds under
    the key [path], if the key is there at all. *)
Record StructField := MkField {
  Name : string;
  Tag : option string;
  exported : bool;
  kind : reflect.Kind;
  val : value;
}.

#[global] Instance StructField_eq_dec : EqDecision StructField.
Proof. solve_decision. Defined.

Definition with_val (f : StructField) (v : value) : StructField :=
  MkField (Name f) (Tag f) (exported f) (kind f) v.

(** [const tag = "path"]; [tf.Tag.Get(tag)] is the empty string when the
    key is absent. *)
Definition TagGet (f : StructField) : string := default "" (Tag f).

(** [ef.CanSet()]: the field was reached through a pointer, so it is
    addressable, and it can be set exactly when it is exported. *)
Definition CanSet (f : StructField) : bool := exported f.

(** What an [interface{}] argument holds. *)
Inductive any :=
| AStruct (fields : list StructField)
| APtr (elem : any)
| ANil
| AOther (k : reflect.Kind).

(** [reflect.ValueOf(x).Kind()] *)
Definition KindOf (x : any) : reflect.Kind :=
  match x with
  | AStruct _ => reflect.Struct
  | APtr _ => reflect.Pointer
  | ANil => reflect.Invalid
  | AOther k => k
  end.

(** The errors the package returns.  [Panic] is not an error value: it
    stands for a run-time panic of [reflect]. *)
Inductive error :=
| ErrMismatch (format path expected got : string)
| ErrExpectedPointer (k : reflect.Kind)
| ErrExpectedStruct (k : reflect.Kind)
| ErrPrivateField (tag name : string)
| ErrNum (func num : string)
| ErrFieldNotFound (field : string)
| Panic (msg : string).

#[global] Instance error_eq_dec : EqDecision error.
Proof. solve_decision. Defined.

(** The package [strconv] and the float formatting of [fmt] belong to Go's
    standard library, not to this repository: they are an interface here.
    The integer parsers are the base-0 ones ([ParseInt(v, 0, bits)]). *)
Class Strconv := {
  ParseBool : string → option bool;
  ParseFloat : string → nat → option Z;
  ParseInt : string → nat → option Z;
  ParseUint : string → nat → option Z;
  (** the conversion [float32(x)], on bit patterns *)
  toFloat32 : Z → Z;
  (** [%v] of a float *)
  FormatFloat : Z → string;
}.

(** [int8(x)], [int16(x)], ...: the low [bits] bits, read as two's complement. *)
Definition wrap_signed (bits : nat) (x : Z) : Z :=
  ((x + 2 ^ (Z.of_nat bits - 1)) mod 2 ^ Z.of_nat bits - 2 ^ (Z.of_nat bits - 1))%Z.

(** [uint8(x)], [uint16(x)], ...: the low [bits] bits. *)
Definition wrap_unsigned (bits : nat) (x : Z) : Z :=
  (x mod 2 ^ Z.of_nat bits)%Z.

(** [ef.SetBool], [ef.SetInt], [ef.SetUint], [ef.SetFloat], [ef.SetString]. *)
Definition SetBool (f : StructField) (b : bool) := with_val f (VBool b).
Definition SetInt (f : StructField) (x : Z) :=
  with_val f (VInt (wrap_signed (reflect.Bits (kind f)) x)).
Definition SetUint (f : StructField) (x : Z) :=
  with_val f (VUint (wrap_unsigned (reflect.Bits (kind f)) x)).
Definition SetFloat `{Strconv} (f : StructField) (x : Z) :=
  with_val f (VFloat (match kind f with reflect.Float32 => toFloat32 x | _ => x end)).
Definition SetString (f : StructField) (s : string) := with_val f (VString s).

(** [fmt.Sprintf("%v", x)] *)
Definition Sprint `{Strconv} (v : value) : string :=
  match v with
  | VBool b => if b then "true" else "false"
  | VInt i => pretty i
  | VUint u => pretty u
  | VFloat x => FormatFloat x
  | VString s => s
  | VOther r => r
  end.

(** The body of the field loop of [ToStruct], the same text in both
    revisions: [inl] is [return err], [inr] the field after the iteration. *)
Definition bindField `{Strconv} (m : gmap string string) (ef : StructField)
  : error + StructField :=
  let tag := TagGet ef in
  if negb (CanSet ef) then
    if decide (tag ≠ "") then inl (ErrPrivateField tag (Name ef)) else inr ef
  else
    match m !! tag with
    | None => inr ef
    | Some v =>
        let bits := reflect.Bits (kind ef) in
        match kind ef with
        | reflect.Bool =>
            match ParseBool v with
            | None => inl (ErrNum "ParseBool" v)
            | Some b => inr (SetBool ef b)
            end
        | reflect.Float32 | reflect.Float64 =>
            match ParseFloat v bits with
            | None => inl (ErrNum "ParseFloat" v)
            | Some x => inr (SetFloat ef x)
            end
        | reflect.Int | reflect.Int8 | reflect.Int16 | reflect.Int32 =>
            match ParseInt v bits with
            | None => inl (ErrNum "ParseInt" v)
            | Some i => inr (SetInt ef i)
            end
        | reflect.Int64 =>
            match ParseInt v bits with
            | None => inl (ErrNum "ParseInt" v)
            | Some i => inr (SetInt ef i)
            end
        | reflect.String => inr (SetString ef v)
        | reflect.Uint | reflect.Uint8 | reflect.Uint16 | reflect.Uint32
        | reflect.Uint64 | reflect.Uintptr =>
            match ParseUint v bits with
            | None => inl (ErrNum "ParseUint" v)
            | Some i => inr (SetUint ef i)
            end
        | _ => inr ef
        end
    end.

(** [for i := 0; i < typ.NumField(); i++ { ... }]: the fields as the loop
    leaves them, and the error it returned, if any.  The fields after a
    failing one are not visited. *)
Fixpoint bindFields `{Strconv} (m : gmap string string) (fs : list StructField)
  : list StructField * option error :=
  match fs with
  | [] => ([], None)
  | ef :: rest =>
      match bindField m ef with
      | inl err => (ef :: rest, Some err)
      | inr ef' =>
          let '(rest', err) := bindFields m rest in (ef' :: rest', err)
      end
  end.

(** The part of [ToStruct] after [ToMap]: the argument as the call leaves
    it, and the returned error. *)
Definition bindStruct `{Strconv} (m : gmap string string) (x : any)
  : any * option error :=
  match x with
  | APtr el =>
      match el with
      | AStruct fs =>
          let '(fs', err) := bindFields m fs in (APtr (AStruct fs'), err)
      | _ => (x, Some (ErrExpectedStruct (KindOf el)))
      end
  | _ => (x, Some (ErrExpectedPointer (KindOf x)))
  end.

(** ** The strict revision: [src/format.go] *)

Module Strict.

(** [type part struct { static string; variable string }] *)
Record part := Part { static : string; variable : string }.

#[global] Instance part_eq_dec : EqDecision part.
Proof. solve_decision. Defined.

(** [part{static: s}] and [part{variable: v}]: the other field is zero. *)
Definition Static (s : string) : part := Part s "".
Definition Variable_ (v : string) : part := Part "" v.

(** [type Format struct { str string; parts []part }] *)
Record Format := MkFormat { str : string; parts : list part }.

(** The body of the loop of [New]. *)
Definition new_part (s : string) : part :=
  if braced s then Variable_ (unbrace s) else Static s.

(** [func New(path string) *Format] *)
Definition New (path : string) : Format :=
  MkFormat path (new_part <$> split path).

(** [for i, s := range splt { ... }] of [ToMap], from index [i] on, with
    the map built so far. *)
Fixpoint ToMap_loop (f : Format) (path : string) (i : nat)
    (splt : list string) (m : gmap string string)
  : error + gmap string string :=
  match splt with
  | [] => inr m
  | s :: rest =>
      match parts f !! i with
      | None => inr m
      | Some p =>
          if decide (variable p ≠ "") then
            ToMap_loop f path (S i) rest (<[variable p := s]> m)
          else if decide (static p ≠ s) then
            inl (ErrMismatch (str f) path (static p) s)
          else ToMap_loop f path (S i) rest m
      end
  end.

(** [func (f *Format) ToMap(path string) (map[string]string, error)] *)
Definition ToMap (f : Format) (path : string) : error + gmap string string :=
  ToMap_loop f path 0 (split path) ∅.

(** [func (f *Format) ToStruct(s string, x interface{}) error] *)
Definition ToStruct `{Strconv} (f : Format) (s : string) (x : any)
  : any * option error :=
  match ToMap f s with
  | inl err => (x, Some err)
  | inr m => bindStruct m x
  end.

(** The field loop of [structField].  [val.Field(i).Interface()] panics on
    an unexported field. *)
Fixpoint structField_loop `{Strconv} (fs : list StructField) (field : string)
  : error + string :=
  match fs with
  | [] => inl (ErrFieldNotFound field)
  | f :: rest =>
      if decide (TagGet f = field) then
        if exported f then inr (Sprint (val f))
        else inl (Panic "reflect.Value.Interface: cannot return value obtained from unexported field or method")
      else structField_loop rest field
  end.

(** [func structField(s interface{}, field string) (string, error)] *)
Definition structField `{Strconv} (s : any) (field : string) : error + string :=
  match s with
  | AStruct fs => structField_loop fs field
  | _ => inl (ErrExpectedStruct (KindOf s))
  end.

(** [for i, p := range f.parts { ... }] of [FromStruct]: the slice [parts]
    it fills, or the error it returns. *)
Fixpoint FromStruct_loop `{Strconv} (ps : list part) (s : any)
  : error + list string :=
  match ps with
  | [] => inr []
  | p :: rest =>
      if decide (variable p ≠ "") then
        match structField s (variable p) with
        | inl err => inl err
        | inr v =>
            match FromStruct_loop rest s with
            | inl err => inl err
            | inr vs => inr (v :: vs)
            end
        end
      else
        match FromStruct_loop rest s with
        | inl err => inl err
        | inr vs => inr (static p :: vs)
        end
  end.

(** [func (f *Format) FromStruct(s interface{}) (string, error)] *)
Definition FromStruct `{Strconv} (f : Format) (s : any) : error + string :=
  match FromStruct_loop (parts f) s with
  | inl err => inl err
  | inr ps =>
      let prefix := if Strings.HasPrefix (str f) "/" then "/" else "" in
      inr (prefix +:+ Strings.Join ps "/")
  end.

End Strict.

(** ** The lenient revision: [src/unnamed/part_000] *)

Module Lenient.

(** [type namedPart struct { name string; index int }] *)
Record namedPart := NamedPart { name : string; index : nat }.

#[global] Instance namedPart_eq_dec : EqDecision namedPart.
Proof. solve_decision. Defined.

(** [type Format struct { namedParts []namedPart }] *)
Record Format := MkFormat { namedParts : list namedPart }.

(** [for i, part := range parts { ... }] of [New], from index [i] on. *)
Fixpoint New_loop (i : nat) (parts : list string) (acc : list namedPart)
  : list namedPart :=
  match parts with
  | [] => acc
  | part :: rest =>
      New_loop (S i) rest
        (if braced part then acc ++ [NamedPart (unbrace part) i] else acc)
  end.

(** [func New(path string) *Format] *)
Definition New (path : string) : Format :=
  MkFormat (New_loop 0 (split path) []).

(** The body of the loop of [ToMap]; [np.index < len(parts)] holds exactly
    when [parts] has an element at [np.index]. *)
Definition ToMap_step (parts : list string) (m : gmap string string)
    (np : namedPart) : gmap string string :=
  match parts !! index np with
  | Some s => <[name np := s]> m
  | None => m
  end.

(** [func (f *Format) ToMap(path string) map[string]string] *)
Definition ToMap (f : Format) (path : string) : gmap string string :=
  foldl (ToMap_step (split path)) ∅ (namedParts f).

(** [func (f *Format) ToStruct(s string, x interface{}) error] *)
Definition ToStruct `{Strconv} (f : Format) (s : string) (x : any)
  : any * option error :=
  bindStruct (ToMap f s) x.

End Lenient.

(** ** An instance of [Strconv]

    Go's [strconv.ParseBool], [strconv.ParseUint] and [strconv.ParseInt]
    with base 0, after the standard library's documentation: the base is
    read off the prefix ([0b], [0o], [0x], a leading [0] for octal, decimal
    otherwise), underscores may separate digits, and the value has to fit
    the bit size.  Floating point is outside the model: this instance reads
    no float, so what it runs are the calls that parse none. *)

Module strconv.

(** [lower(c)]: [c | ('x' - 'X')] *)
Definition lower (c : ascii) : ascii :=
  ascii_of_N (N.lor (N_of_ascii c) 32).

(** The value of a digit, letters counting from ten, whatever the base. *)
Definition digit_of (c : ascii) : option N :=
  let n := N_of_ascii c in
  let l := N_of_ascii (lower c) in
  if ((48 <=? n) && (n <=? 57))%N then Some (n - 48)%N
  else if ((97 <=? l) && (l <=? 122))%N then Some (l - 97 + 10)%N
  else None.

(** The digit loop of [ParseUint]: [None] is a syntax error. *)
Fixpoint digits (base : N) (base0 : bool) (s : string) (n : N) : option N :=
  match s with
  | EmptyString => Some n
  | String c s' =>
      if bool_decide (c = "_"%char) && base0 then digits base base0 s' n
      else match digit_of c with
           | None => None
           | Some d =>
               if (base <=? d)%N then None
               else digits base base0 s' (n * base + d)%N
           end
  end.

Inductive saw := SawStart | SawDigit | SawUnderscore | SawOther.

Fixpoint underscoreOK_loop (hex : bool) (sw : saw) (s : string) : bool :=
  match s with
  | EmptyString => match sw with SawUnderscore => false | _ => true end
  | String c s' =>
      let n := N_of_ascii c in
      let l := N_of_ascii (lower c) in
      if ((48 <=? n) && (n <=? 57))%N || (hex && (97 <=? l) && (l <=? 102))%N
      then underscoreOK_loop hex SawDigit s'
      else if bool_decide (c = "_"%char)
      then match sw with
           | SawDigit => underscoreOK_loop hex SawUnderscore s'
           | _ => false
           end
      else match sw with
           | SawUnderscore => false
           | _ => underscoreOK_loop hex SawOther s'
           end
  end.

(** [underscoreOK]: underscores stand between digits, or between a base
    prefix and a digit. *)
Definition underscoreOK (s : string) : bool :=
  let s := match s with
           | String "-" r | String "+" r => r
           | _ => s
           end in
  match s with
  | String "0" (String c r) =>
      if bool_decide (lower c = "b"%char) || bool_decide (lower c = "o"%char)
         || bool_decide (lower c = "x"%char)
      then underscoreOK_loop (bool_decide (lower c = "x"%char)) SawDigit r
      else underscoreOK_loop false SawStart s
  | _ => underscoreOK_loop false SawStart s
  end.

(** The base and the digits of a base-0 literal. *)
Definition base_prefix (s : string) : N * string :=
  match s with
  | String "0" (String c (String d r)) =>
      if bool_decide (lower c = "b"%char) then (2%N, String d r)
      else if bool_decide (lower c = "o"%char) then (8%N, String d r)
      else if bool_decide (lower c = "x"%char) then (16%N, String d r)
      else (8%N, String c (String d r))
  | String "0" r => (8%N, r)
  | _ => (10%N, s)
  end.

(** The number a base-0 literal without sign denotes, whatever its size. *)
Definition parse_magnitude (s : string) : option N :=
  match s with
  | EmptyString => None
  | _ =>
      let '(base, ds) := base_prefix s in
      match digits base true ds 0%N with
      | None => None
      | Some n =>
          if Strings.ContainsByte ds "_"%char && negb (underscoreOK s)
          then None else Some n
      end
  end.

Definition bit_size (bits : nat) : option nat :=
  if decide (bits = 0) then Some reflect.IntSize
  else if decide (bits ≤ 64) then Some bits else None.

(** [ParseUint(s, 0, bits)] *)
Definition ParseUint (s : string) (bits : nat) : option Z :=
  match bit_size bits, parse_magnitude s with
  | Some b, Some n =>
      if (Z.of_N n <=? 2 ^ Z.of_nat b - 1)%Z then Some (Z.of_N n) else None
  | _, _ => None
  end.

(** [ParseInt(s, 0, bits)] *)
Definition ParseInt (s : string) (bits : nat) : option Z :=
  let '(neg, r) := match s with
                   | String "+" r => (false, r)
                   | String "-" r => (true, r)
                   | _ => (false, s)
                   end in
  match bit_size bits, parse_magnitude r with
  | Some b, Some n =>
      let cutoff := (2 ^ (Z.of_nat b - 1))%Z in
      if neg then
        if (Z.of_N n <=? cutoff)%Z then Some (- Z.of_N n)%Z else None
      else
        if (Z.of_N n <? cutoff)%Z then Some (Z.of_N n) else None
  | _, _ => None
  end.

(** [ParseBool(str)] *)
Definition ParseBool (s : string) : option bool :=
  if bool_decide (s ∈ ["1"; "t"; "T"; "TRUE"; "true"; "True"]) then Some true
  else if bool_decide (s ∈ ["0"; "f"; "F"; "FALSE"; "false"; "False"])
  then Some false
  else None.

End strconv.

Definition go_strconv : Strconv := {|
  ParseBool := strconv.ParseBool;
  ParseFloat := λ _ _, None;
  ParseInt := strconv.ParseInt;
  ParseUint := strconv.ParseUint;
  toFloat32 := λ x, x;
  FormatFloat := λ _, "";
|}.

(** ** Notions the statements use *)

(** The struct of the repository's [TestToStruct]:
    [[
    type MyPath struct {
        A string  `path:"a"`
        B int     `path:"b"`
        C float64 `path:"c"`
        D bool    `path:"d"`
    }
    ]] *)
Definition MyPath (a : string) (b : Z) (c : Z) (d : bool) : list StructField :=
  [ MkField "A" (Some "a") true reflect.String (VString a);
    MkField "B" (Some "b") true reflect.Int (VInt b);
    MkField "C" (Some "c") true reflect.Float64 (VFloat c);
    MkField "D" (Some "d") true reflect.Bool (VBool d) ].

(** The kinds the [switch] of [ToStruct] has a case for. *)
Definition supported (k : reflect.Kind) : bool :=
  match k with
  | reflect.Bool
  | reflect.Float32 | reflect.Float64
  | reflect.Int | reflect.Int8 | reflect.Int16 | reflect.Int32 | reflect.Int64
  | reflect.String
  | reflect.Uint | reflect.Uint8 | reflect.Uint16 | reflect.Uint32
  | reflect.Uint64 | reflect.Uintptr => true
  | _ => false
  end.

(** The parser that [ToStruct] calls for a field of kind [k] rejects [v]. *)
Definition coercion_fails `{Strconv} (k : reflect.Kind) (v : string) : Prop :=
  match k with
  | reflect.Bool => ParseBool v = None
  | reflect.Float32 | reflect.Float64 => ParseFloat v (reflect.Bits k) = None
  | reflect.Int | reflect.Int8 | reflect.Int16 | reflect.Int32 | reflect.Int64 =>
      ParseInt v (reflect.Bits k) = None
  | reflect.Uint | reflect.Uint8 | reflect.Uint16 | reflect.Uint32
  | reflect.Uint64 | reflect.Uintptr => ParseUint v (reflect.Bits k) = None
  | _ => False
  end.

(** Every part of the template is a variable. *)
Definition only_variables (f : Strict.Format) : Prop :=
  Forall (λ p, Strict.variable p ≠ "") (Strict.parts f).

(** Every tagged field holds a string without a slash. *)
Definition slash_free_strings (fs : list StructField) : Prop :=
  Forall (λ fld, is_Some (Tag fld) →
                 ∃ v, val fld = VString v ∧ Strings.ContainsByte v "/" = false) fs.

(** Rendering the struct and matching the rendered path gives back, under
    each variable of the template, the string value of the field that
    [structField] finds for it. *)
Definition round_trips `{Strconv} (f : Strict.Format) (fs : list StructField) : Prop :=
  ∀ path, Strict.FromStruct f (AStruct fs) = inr path →
    ∃ m, Strict.ToMap f path = inr m ∧
      ∀ p, p ∈ Strict.parts f →
        ∃ fld v, fld ∈ fs ∧ Tag fld = Some (Strict.variable p) ∧
                 val fld = VString v ∧
                 Strict.structField (AStruct fs) (Strict.variable p) = inr v ∧
                 m !! Strict.variable p = Some v.



(** The variable a strict part binds, if any: [f.parts[i].variable != ""]. *)
Definition var_of (p : Strict.part) : option string :=
  if decide (Strict.variable p ≠ "") then Some (Strict.variable p) else None.

(** The name a template token declares, if it is of the shape [{name}]. *)
Definition name_of (tok : string) : option string :=
  if braced tok then Some (unbrace tok) else None.

(** Walking a list of optional variable names and a list of path tokens in
    step, up to the shorter of the two, each name bound to its token. *)
Fixpoint bindings (vars : list (option string)) (toks : list string)
    (m : gmap string string) : gmap string string :=
  match vars, toks with
  | v :: vars', s :: toks' =>
      bindings vars' toks' (match v with Some k => <[k := s]> m | None => m end)
  | _, _ => m
  end.

(** Index [i] holds a static part of [f] whose text differs from the token
    of [path] there. *)
Definition mismatch_at (f : Strict.Format) (path : string) (i : nat) : Prop :=
  ∃ p s, Strict.parts f !! i = Some p ∧ split path !! i = Some s ∧
         Strict.variable p = "" ∧ Strict.static p ≠ s.

(** * Properties *)

(** ** Strings *)

Section string_facts.
Implicit Types (s t u : string) (a c : ascii).

Lemma app_cons a s t : String a s +:+ t = String a (s +:+ t).
Proof. reflexivity. Qed.

Lemma app_empty_l s : "" +:+ s = s.
Proof. reflexivity. Qed.

Lemma app_assoc s t u : (s +:+ t) +:+ u = s +:+ (t +:+ u).
Proof. induction s as [|a s IH]; [done|]. by rewrite !app_cons, IH. Qed.

Lemma length_app s t :
  String.length (s +:+ t) = String.length s + String.length t.
Proof. induction s as [|a s IH]; [done|]. rewrite app_cons. simpl. by rewrite IH. Qed.

Lemma substring_0_0 s : String.substring 0 0 s = "".
Proof. by destruct s. Qed.

Lemma substring_0_length s : String.substring 0 (String.length s) s = s.
Proof. induction s as [|a s IH]; [done|]. simpl. by rewrite IH. Qed.

Lemma substring_0_app s t : String.substring 0 (String.length s) (s +:+ t) = s.
Proof.
  induction s as [|a s IH]; [apply substring_0_0|].
  rewrite app_cons. simpl. by rewrite IH.
Qed.

Lemma substring_skip_app s t n :
  String.substring (String.length s) n (s +:+ t) = String.substring 0 n t.
Proof. induction s as [|a s IH]; [done|]. rewrite app_cons. simpl. apply IH. Qed.

Lemma substring_split n s :
  n ≤ String.length s →
  String.substring 0 n s +:+ String.substring n (String.length s - n) s = s.
Proof.
  revert s. induction n as [|n IH]; intros s Hn.
  - rewrite substring_0_0, Nat.sub_0_r, substring_0_length. done.
  - destruct s as [|a s]; simpl in *; [lia|].
    rewrite app_cons, IH by lia. done.
Qed.

Lemma HasPrefix_spec s pre :
  Strings.HasPrefix s pre = true ↔ ∃ t, s = pre +:+ t.
Proof.
  unfold Strings.HasPrefix. rewrite andb_true_iff, !bool_decide_eq_true. split.
  - intros [Hlen Hsub]. exists (String.substring (String.length pre)
      (String.length s - String.length pre) s).
    rewrite <-Hsub at 1. symmetry. by apply substring_split.
  - intros [t ->]. rewrite length_app, substring_0_app. split; [lia|done].
Qed.

Lemma TrimPrefix_app pre t : Strings.TrimPrefix (pre +:+ t) pre = t.
Proof.
  unfold Strings.TrimPrefix.
  assert (Strings.HasPrefix (pre +:+ t) pre = true) as -> by (apply HasPrefix_spec; eauto).
  rewrite substring_skip_app, length_app.
  replace (String.length pre + String.length t - String.length pre)
    with (String.length t) by lia.
  apply substring_0_length.
Qed.

Lemma TrimPrefix_not s pre :
  Strings.HasPrefix s pre = false → Strings.TrimPrefix s pre = s.
Proof. unfold Strings.TrimPrefix. by intros ->. Qed.

Lemma HasSuffix_spec s suf :
  Strings.HasSuffix s suf = true ↔ ∃ t, s = t +:+ suf.
Proof.
  unfold Strings.HasSuffix. rewrite andb_true_iff, !bool_decide_eq_true. split.
  - intros [Hlen Hsub].
    exists (String.substring 0 (String.length s - String.length suf) s).
    pose proof (substring_split (String.length s - String.length suf) s) as H.
    replace (String.length s - (String.length s - String.length suf))
      with (String.length suf) in H by lia.
    rewrite Hsub in H. symmetry. apply H. lia.
  - intros [t ->]. rewrite length_app. split; [lia|].
    replace (String.length t + String.length suf - String.length suf)
      with (String.length t) by lia.
    rewrite substring_skip_app. apply substring_0_length.
Qed.

Lemma TrimSuffix_app t suf : Strings.TrimSuffix (t +:+ suf) suf = t.
Proof.
  unfold Strings.TrimSuffix.
  assert (Strings.HasSuffix (t +:+ suf) suf = true) as -> by (apply HasSuffix_spec; eauto).
  rewrite length_app.
  replace (String.length t + String.length suf - String.length suf)
    with (String.length t) by lia.
  apply substring_0_app.
Qed.

(** A leading byte. *)
Lemma HasPrefix_byte a s c :
  Strings.HasPrefix (String a s) (String c "") = bool_decide (a = c).
Proof.
  destruct (Strings.HasPrefix _ _) eqn:E.
  - apply HasPrefix_spec in E as [t E]. rewrite app_cons in E.
    symmetry. apply bool_decide_eq_true. congruence.
  - symmetry. apply bool_decide_eq_false. intros ->.
    assert (Strings.HasPrefix (String c s) (String c "") = true); [|congruence].
    apply HasPrefix_spec. by exists s.
Qed.

(** What [TrimPrefix(s, "/")] does. *)
Lemma TrimPrefix_slash s :
  (∃ t, s = "/" +:+ t ∧ Strings.TrimPrefix s "/" = t) ∨
  (Strings.HasPrefix s "/" = false ∧ Strings.TrimPrefix s "/" = s).
Proof.
  destruct (Strings.HasPrefix s "/") eqn:E.
  - left. apply HasPrefix_spec in E as [t ->]. exists t.
    split; [done|apply TrimPrefix_app].
  - right. split; [done|by apply TrimPrefix_not].
Qed.

(** [braced] tokens are exactly the ones of the shape [{name}], and
    [unbrace] gives the name. *)
Lemma braced_spec s : braced s = true ↔ ∃ n, s = "{" +:+ n +:+ "}".
Proof.
  unfold braced. rewrite andb_true_iff, HasPrefix_spec, HasSuffix_spec. split.
  - intros [[t Ht] [u Hu]]. subst s. destruct u as [|a u].
    + discriminate Hu.
    + rewrite !app_cons, app_empty_l in Hu. injection Hu as <- ->. by exists u.
  - intros [n ->]. split; [by exists (n +:+ "}")|].
    exists ("{" +:+ n). by rewrite app_assoc.
Qed.

Lemma unbrace_app n : unbrace ("{" +:+ n +:+ "}") = n.
Proof. unfold unbrace. by rewrite TrimPrefix_app, TrimSuffix_app. Qed.

Lemma braced_app n : braced ("{" +:+ n +:+ "}") = true.
Proof. apply braced_spec. by exists n. Qed.

(** [Split] and [Join] are inverse to each other on lists of pieces that
    hold no separator. *)
Lemma Split_nonempty s c : Strings.Split s c ≠ [].
Proof.
  destruct s as [|a s]; simpl; [done|].
  case_decide; [done|]. by destruct (Strings.Split s c).
Qed.

Lemma Join_cons x y l sep :
  Strings.Join (x :: y :: l) sep = x +:+ sep +:+ Strings.Join (y :: l) sep.
Proof. reflexivity. Qed.

Lemma Join_Split s c : Strings.Join (Strings.Split s c) (String c "") = s.
Proof.
  induction s as [|a s IH]; [done|]. simpl.
  pose proof (Split_nonempty s c) as Hne.
  destruct (Strings.Split s c) as [|t ts] eqn:E; [done|].
  case_decide as Ha.
  - subst a. rewrite Join_cons, IH. done.
  - destruct ts as [|t' ts].
    + simpl in *. by subst.
    + rewrite Join_cons in *. rewrite app_cons. by rewrite IH.
Qed.

Lemma Split_no_sep s c :
  Forall (λ t, Strings.ContainsByte t c = false) (Strings.Split s c).
Proof.
  induction s as [|a s IH]; simpl; [by repeat constructor|].
  case_decide as Ha.
  - by constructor.
  - destruct (Strings.Split s c) as [|t ts]; simpl.
    + repeat constructor. simpl. by rewrite bool_decide_eq_false_2.
    + inversion_clear IH. constructor; [|done].
      simpl. by rewrite bool_decide_eq_false_2.
Qed.

Lemma Split_app s t c :
  Strings.Split (s +:+ String c t) c = Strings.Split s c ++ Strings.Split t c.
Proof.
  induction s as [|a s IH].
  - rewrite app_empty_l. simpl. by rewrite decide_True.
  - rewrite app_cons. simpl. rewrite IH.
    pose proof (Split_nonempty s c).
    case_decide; [done|]. by destruct (Strings.Split s c).
Qed.

Lemma Split_no_byte s c :
  Strings.ContainsByte s c = false → Strings.Split s c = [s].
Proof.
  induction s as [|a s IH]; simpl; [done|].
  rewrite orb_false_iff, bool_decide_eq_false. intros [Ha Hs].
  rewrite decide_False by done. by rewrite IH.
Qed.

Lemma Split_Join l c :
  l ≠ [] → Forall (λ t, Strings.ContainsByte t c = false) l →
  Strings.Split (Strings.Join l (String c "")) c = l.
Proof.
  intros Hne Hl. induction Hl as [|x l Hx Hl IH]; [done|].
  destruct l as [|y l].
  - simpl. by apply Split_no_byte.
  - rewrite Join_cons, app_cons, app_empty_l, Split_app, IH by done.
    by rewrite Split_no_byte.
Qed.

End string_facts.

(** ** The tests of the repository, run on the model *)

(** [TestNew], in both revisions. *)
Example New_items :
  Strict.parts (Strict.New "/items/{id}/subitems/{subid}") =
  [Strict.Static "items"; Strict.Variable_ "id";
   Strict.Static "subitems"; Strict.Variable_ "subid"].
Proof. vm_compute. reflexivity. Qed.

Example Lenient_New_items :
  Lenient.namedParts (Lenient.New "/items/{id}/subitems/{subid}") =
  [Lenient.NamedPart "id" 1; Lenient.NamedPart "subid" 3].
Proof. vm_compute. reflexivity. Qed.

(** [TestToMap]: exact match, shorter input, longer input, and, in the
    strict revision, an invalid static part. *)
Example Lenient_ToMap_items :
  Lenient.ToMap (Lenient.New "/items/{id}/subitems/{subid}") "/items/123/subitems/456"
    = {[ "id" := "123"; "subid" := "456" ]} ∧
  Lenient.ToMap (Lenient.New "/items/{id}/subitems/{subid}") "/items/123/subitems"
    = {[ "id" := "123" ]} ∧
  Lenient.ToMap (Lenient.New "/items/{id}/subitems/{subid}")
    "/items/123/subitems/456/extra"
    = {[ "id" := "123"; "subid" := "456" ]}.
Proof. split; [|split]; vm_compute; reflexivity. Qed.

Example Strict_ToMap_items :
  Strict.ToMap (Strict.New "/items/{id}/subitems/{subid}") "/items/123/subitems/456"
    = inr {[ "id" := "123"; "subid" := "456" ]} ∧
  Strict.ToMap (Strict.New "/items/{id}/subitems/{subid}") "/items/123/subitems"
    = inr {[ "id" := "123" ]} ∧
  Strict.ToMap (Strict.New "/items/{id}/subitems/{subid}")
    "/items/123/subitems/456/extra"
    = inr {[ "id" := "123"; "subid" := "456" ]}.
Proof. split; [|split]; vm_compute; reflexivity. Qed.

Example Strict_ToMap_invalid :
  Strict.ToMap (Strict.New "/items/{id}/subitems/{subid}") "/items/123/invalid/456"
  = inl (ErrMismatch "/items/{id}/subitems/{subid}" "/items/123/invalid/456"
           "subitems" "invalid").
Proof. vm_compute. reflexivity. Qed.

(** The token [{}] compiles to a part with empty variable and empty static
    text: to the strict revision it is a static part that matches the
    empty token only; the lenient revision records the empty name. *)
Example New_empty_braces :
  Strict.new_part "{}" = Strict.Static "" ∧
  Strict.new_part "{}" = Strict.Variable_ "" ∧
  Lenient.namedParts (Lenient.New "/{}") = [Lenient.NamedPart "" 0].
Proof. split; [|split]; vm_compute; reflexivity. Qed.

(** The instance of [strconv] on some literals. *)
Example strconv_examples :
  strconv.ParseInt "123" 64 = Some 123%Z ∧
  strconv.ParseInt "-0x1F" 64 = Some (-31)%Z ∧
  strconv.ParseInt "0b1_01" 8 = Some 5%Z ∧
  strconv.ParseInt "017" 8 = Some 15%Z ∧
  strconv.ParseInt "0" 8 = Some 0%Z ∧
  strconv.ParseInt "128" 8 = None ∧
  strconv.ParseInt "-128" 8 = Some (-128)%Z ∧
  strconv.ParseInt "1__0" 64 = None ∧
  strconv.ParseInt "_10" 64 = None ∧
  strconv.ParseInt "0x" 64 = None ∧
  strconv.ParseInt "0_7" 64 = Some 7%Z ∧
  strconv.ParseInt "xyz" 64 = None ∧
  strconv.ParseInt "" 64 = None ∧
  strconv.ParseUint "255" 8 = Some 255%Z ∧
  strconv.ParseUint "256" 8 = None ∧
  strconv.ParseUint "-1" 8 = None ∧
  strconv.ParseBool "true" = Some true ∧
  strconv.ParseBool "yes" = None.
Proof. vm_compute. repeat split. Qed.

(** ** Matching *)

Section matching.
Implicit Types (m : gmap string string) (k v : string).

Lemma bindings_nil_r vars m : bindings vars [] m = m.
Proof. by destruct vars. Qed.

(** What a walk leaves under a key: the token at the last index that binds
    the key, or what was there before when no index does. *)
Lemma bindings_lookup vars toks m k v :
  bindings vars toks m !! k = Some v ↔
    (∃ i, vars !! i = Some (Some k) ∧ toks !! i = Some v ∧
          ∀ j, i < j → j < length toks → vars !! j ≠ Some (Some k)) ∨
    (m !! k = Some v ∧ ∀ j, j < length toks → vars !! j ≠ Some (Some k)).
Proof.
  revert toks m. induction vars as [|x vars IH]; intros toks m.
  { simpl. split; [intros ?; right; by split|]. by intros [(i & ? & _)|[? _]]. }
  destruct toks as [|s toks].
  { simpl. split; [intros ?; right; split; [done|intros; lia]|].
    by intros [(i & _ & ? & _)|[? _]]. }
  simpl. rewrite IH. clear IH. split.
  - intros [(i & Hv & Ht & Hlast)|[Hm Hno]].
    + left. exists (S i). repeat split; [done..|].
      intros [|j] ??; [lia|]. simpl. apply Hlast; lia.
    + destruct (decide (x = Some k)) as [->|Hx].
      * rewrite lookup_insert_eq in Hm. injection Hm as ->.
        left. exists 0. repeat split.
        intros [|j] ??; [lia|]. simpl. apply Hno; lia.
      * right. split.
        -- destruct x as [k'|]; [|done]. rewrite lookup_insert_ne in Hm; [done|congruence].
        -- intros [|j] ?; simpl; [congruence|]. apply Hno; lia.
  - intros [(i & Hv & Ht & Hlast)|[Hm Hno]].
    + destruct i as [|i]; simpl in *.
      * injection Hv as ->. injection Ht as ->. right. split.
        -- apply lookup_insert_eq.
        -- intros j ?. apply (Hlast (S j)); lia.
      * left. exists i. repeat split; [done..|].
        intros j ??. apply (Hlast (S j)); lia.
    + right. split.
      * pose proof (Hno 0 ltac:(lia)) as H0. simpl in H0.
        destruct x as [k'|]; [|done]. rewrite lookup_insert_ne; [done|congruence].
      * intros j ?. apply (Hno (S j)); lia.
Qed.

Lemma drop_lookup_cons {A} (l : list A) i x :
  l !! i = Some x → drop i l = x :: drop (S i) l.
Proof.
  revert i. induction l as [|y l IH]; intros [|i] ?; simplify_eq/=; [done|].
  by apply IH.
Qed.

(** The strict loop, when it returns a map, returns the walk of its parts. *)
Lemma Strict_loop_bindings f path i splt m m' :
  Strict.ToMap_loop f path i splt m = inr m' →
  m' = bindings (drop i (var_of <$> Strict.parts f)) splt m.
Proof.
  revert i m. induction splt as [|s splt IH]; intros i m; simpl.
  { intros [= <-]. by rewrite bindings_nil_r. }
  destruct (Strict.parts f !! i) as [p|] eqn:Hp.
  - rewrite (drop_lookup_cons _ i (var_of p)) by (by rewrite list_lookup_fmap, Hp).
    simpl. unfold var_of at 2. repeat case_decide; try done; apply IH.
  - intros [= <-]. rewrite drop_ge; [done|].
    rewrite length_fmap. by apply lookup_ge_None.
Qed.

(** The strict loop fails exactly at its first mismatch. *)
Lemma Strict_loop_inl f path i splt m e :
  Strict.ToMap_loop f path i splt m = inl e →
  ∃ j p s, Strict.parts f !! (i + j) = Some p ∧ splt !! j = Some s ∧
    Strict.variable p = "" ∧ Strict.static p ≠ s ∧
    e = ErrMismatch (Strict.str f) path (Strict.static p) s ∧
    ∀ j' p' s', j' < j → Strict.parts f !! (i + j') = Some p' →
      splt !! j' = Some s' → Strict.variable p' = "" → Strict.static p' = s'.
Proof.
  revert i m. induction splt as [|s splt IH]; intros i m; simpl; [done|].
  destruct (Strict.parts f !! i) as [p|] eqn:Hp; [|done].
  assert (∀ m0, Strict.ToMap_loop f path (S i) splt m0 = inl e →
    (Strict.variable p = "" → Strict.static p = s) → ∃ j p0 s0,
    Strict.parts f !! (i + j) = Some p0 ∧ (s :: splt) !! j = Some s0 ∧
    Strict.variable p0 = "" ∧ Strict.static p0 ≠ s0 ∧
    e = ErrMismatch (Strict.str f) path (Strict.static p0) s0 ∧
    ∀ j' p' s', j' < j → Strict.parts f !! (i + j') = Some p' →
      (s :: splt) !! j' = Some s' → Strict.variable p' = "" →
      Strict.static p' = s') as Hrec.
  { intros m0 H Hhere. apply IH in H as (j & p0 & s0 & H1 & H2 & H3 & H4 & H5 & H6).
    exists (S j), p0, s0. replace (i + S j) with (S i + j) by lia.
    repeat split; [done..|].
    intros [|j'] p' s' ? Hp' Hs' Hv'.
    - rewrite Nat.add_0_r in Hp'. simplify_eq/=. by apply Hhere.
    - replace (i + S j') with (S i + j') in Hp' by lia.
      apply (H6 j' p' s'); [lia|done..]. }
  destruct (decide (Strict.variable p ≠ "")) as [Hv|Hv].
  - intros Hloop. apply (Hrec _ Hloop). done.
  - assert (Strict.variable p = "") by (by destruct (decide (Strict.variable p = ""))).
    destruct (decide (Strict.static p ≠ s)) as [Hs|Hs].
    + intros [= <-]. exists 0, p, s. rewrite Nat.add_0_r.
      repeat split; [done..|]. intros; lia.
    + intros Hloop. apply (Hrec _ Hloop). intros _.
      by destruct (decide (Strict.static p = s)).
Qed.

Lemma Strict_loop_mismatch f path i splt m j p s :
  Strict.parts f !! (i + j) = Some p → splt !! j = Some s →
  Strict.variable p = "" → Strict.static p ≠ s →
  ∃ e, Strict.ToMap_loop f path i splt m = inl e.
Proof.
  revert i j m. induction splt as [|s0 splt IH]; intros i j m Hp Hs Hv Hne; [done|].
  simpl. destruct j as [|j].
  - rewrite Nat.add_0_r in Hp. simplify_eq/=. rewrite Hp.
    rewrite decide_False by (by intros ?). rewrite decide_True by done. eauto.
  - simpl in Hs. destruct (Strict.parts f !! i) as [p0|] eqn:Hp0.
    + replace (i + S j) with (S i + j) in Hp by lia.
      repeat case_decide; eauto.
    + apply lookup_ge_None in Hp0. apply lookup_lt_Some in Hp. lia.
Qed.

(** The lenient compiler keeps what it has collected in front. *)
Lemma New_loop_acc i l acc :
  Lenient.New_loop i l acc = acc ++ Lenient.New_loop i l [].
Proof.
  revert i acc. induction l as [|tok l IH]; intros i acc; simpl.
  - by rewrite app_nil_r.
  - destruct (braced tok); [|apply IH].
    rewrite (IH _ (acc ++ _)), (IH _ [_]). by rewrite !(assoc_L (++)).
Qed.

(** The lenient loop over a compiled template is the walk of its tokens. *)
Lemma Lenient_fold_bindings ptoks i l m :
  foldl (Lenient.ToMap_step ptoks) m (Lenient.New_loop i l []) =
  bindings (name_of <$> l) (drop i ptoks) m.
Proof.
  revert i m. induction l as [|tok l IH]; intros i m; [done|].
  simpl. rewrite New_loop_acc, foldl_app, IH.
  destruct (ptoks !! i) as [s|] eqn:Hs.
  - rewrite (drop_lookup_cons _ i s) by done. simpl.
    assert (name_of tok = if braced tok then Some (unbrace tok) else None)
      as -> by done.
    destruct (braced tok); simpl; [|done].
    unfold Lenient.ToMap_step. simpl. by rewrite Hs.
  - apply lookup_ge_None in Hs. rewrite !drop_ge by lia.
    rewrite !bindings_nil_r. destruct (braced tok); simpl; [|done].
    unfold Lenient.ToMap_step. simpl.
    by rewrite (proj2 (lookup_ge_None _ _)) by lia.
Qed.

Lemma Lenient_ToMap_bindings t path :
  Lenient.ToMap (Lenient.New t) path =
  bindings (name_of <$> split t) (split path) ∅.
Proof. unfold Lenient.ToMap, Lenient.New. simpl. by rewrite Lenient_fold_bindings. Qed.

Lemma Strict_ToMap_bindings f path m :
  Strict.ToMap f path = inr m →
  m = bindings (var_of <$> Strict.parts f) (split path) ∅.
Proof. intros H. by apply Strict_loop_bindings in H. Qed.

End matching.

(** ** Compiling a template *)

Section compiling.
Implicit Types (t tok k : string).

Lemma name_of_spec tok k : name_of tok = Some k ↔ tok = "{" +:+ k +:+ "}".
Proof.
  unfold name_of. destruct (braced tok) eqn:Hb.
  - apply braced_spec in Hb as [n ->]. rewrite unbrace_app. split.
    + by intros [= ->].
    + intros Heq. apply (inj (String.app "{")) in Heq.
      f_equal. revert Heq. clear. revert k.
      induction n as [|a n IH]; intros [|b k] Heq; try done.
      * destruct k; discriminate Heq.
      * destruct n; discriminate Heq.
      * rewrite !app_cons in Heq. injection Heq as -> Heq. f_equal. by apply IH.
  - split; [done|]. intros ->. by rewrite braced_app in Hb.
Qed.

(** A strict part binds what its token declares, unless the token is [{}]:
    the empty name makes the part a static one with empty text. *)
Lemma var_of_new_part tok :
  tok ≠ "{}" → var_of (Strict.new_part tok) = name_of tok.
Proof.
  intros Hne. unfold var_of, Strict.new_part, name_of.
  destruct (braced tok) eqn:Hb; simpl; [|done].
  case_decide as Hv; [done|].
  apply braced_spec in Hb as [n ->]. rewrite unbrace_app in Hv.
  destruct (decide (n = "")) as [->|]; [done|]. by destruct Hv.
Qed.

Lemma var_of_spec (p : Strict.part) k :
  var_of p = Some k ↔ Strict.variable p = k ∧ k ≠ "".
Proof.
  unfold var_of. case_decide as Hv.
  - split; [by intros [= <-]|]. by intros [-> _].
  - split; [done|]. intros [<- ?]. by destruct Hv.
Qed.

Lemma New_loop_cons i tok l :
  Lenient.New_loop i (tok :: l) [] =
  (if braced tok then [Lenient.NamedPart (unbrace tok) i] else []) ++
  Lenient.New_loop (S i) l [].
Proof. simpl. by rewrite New_loop_acc. Qed.

Lemma New_loop_elem i l k j :
  Lenient.NamedPart k j ∈ Lenient.New_loop i l [] ↔
  ∃ d, j = i + d ∧ l !! d = Some ("{" +:+ k +:+ "}").
Proof.
  revert i. induction l as [|tok l IH]; intros i.
  { simpl. split; [by intros ?%elem_of_nil|]. by intros (d & _ & ?). }
  rewrite New_loop_cons, elem_of_app, IH. split.
  - intros [Hhere|(d & -> & Hd)].
    + destruct (braced tok) eqn:Hb; [|by apply elem_of_nil in Hhere].
      apply list_elem_of_singleton in Hhere as [= -> ->].
      exists 0. split; [lia|]. simpl. f_equal.
      apply name_of_spec. unfold name_of. by rewrite Hb.
    + exists (S d). split; [lia|done].
  - intros ([|d] & -> & Hd); simpl in Hd.
    + left. injection Hd as ->. rewrite braced_app, unbrace_app, Nat.add_0_r.
      by apply list_elem_of_singleton.
    + right. exists d. split; [lia|done].
Qed.

Lemma New_loop_bounds i l :
  Forall (λ np, i ≤ Lenient.index np < i + length l) (Lenient.New_loop i l []).
Proof.
  revert i. induction l as [|tok l IH]; intros i; [by constructor|].
  rewrite New_loop_cons. apply Forall_app. split.
  - destruct (braced tok); repeat constructor; simpl; lia.
  - eapply Forall_impl; [apply IH|]. simpl. intros; lia.
Qed.

Lemma New_loop_sorted i l :
  StronglySorted (λ a b, Lenient.index a < Lenient.index b)
    (Lenient.New_loop i l []).
Proof.
  revert i. induction l as [|tok l IH]; intros i; [constructor|].
  rewrite New_loop_cons. destruct (braced tok); simpl; [|apply IH].
  constructor; [apply IH|].
  eapply Forall_impl; [apply (New_loop_bounds (S i) l)|]. simpl. intros; lia.
Qed.

(** A template that ends in a slash has an empty last token. *)
Lemma split_trailing_slash t :
  Strings.HasSuffix t "/" = true → last (split t) = Some "".
Proof.
  intros [u ->]%HasSuffix_spec. unfold split.
  destruct (TrimPrefix_slash (u +:+ "/")) as [(r & Hr & ->)|[_ ->]].
  - destruct u as [|a u].
    + change ("/" = String "/" r) in Hr. injection Hr as <-. done.
    + change (String a (u +:+ "/") = String "/" r) in Hr. injection Hr as -> <-.
      rewrite Split_app. simpl (Strings.Split "" _). by rewrite last_snoc.
  - rewrite Split_app. simpl (Strings.Split "" _). by rewrite last_snoc.
Qed.

End compiling.

(** ** How far the loops of [ToMap] walk *)

Section walking.
Implicit Types (m : gmap string string).

(** Path tokens past the template's length are never looked at. *)
Lemma Strict_loop_take_toks f path i splt m :
  Strict.ToMap_loop f path i splt m =
  Strict.ToMap_loop f path i (take (length (Strict.parts f) - i) splt) m.
Proof.
  revert i m. induction splt as [|s splt IH]; intros i m.
  { by rewrite take_nil. }
  simpl. destruct (Strict.parts f !! i) as [p|] eqn:Hp.
  - apply lookup_lt_Some in Hp as Hlt.
    replace (length (Strict.parts f) - i)
      with (S (length (Strict.parts f) - S i)) by lia.
    simpl. rewrite Hp. repeat case_decide; try done; apply IH.
  - apply lookup_ge_None in Hp.
    by replace (length (Strict.parts f) - i) with 0 by lia.
Qed.

(** Parts past the path's length are never looked at. *)
Lemma Strict_loop_take_parts f path i splt m n :
  i + length splt ≤ n →
  Strict.ToMap_loop f path i splt m =
  Strict.ToMap_loop (Strict.MkFormat (Strict.str f) (take n (Strict.parts f)))
    path i splt m.
Proof.
  revert i m. induction splt as [|s splt IH]; intros i m Hn; [done|].
  simpl in *. rewrite lookup_take_lt by lia.
  destruct (Strict.parts f !! i) as [p|]; [|done].
  repeat case_decide; try done; apply IH; lia.
Qed.

Lemma Strict_ToMap_walk f path :
  Strict.ToMap f path =
  Strict.ToMap_loop
    (Strict.MkFormat (Strict.str f)
       (take (length (Strict.parts f) `min` length (split path)) (Strict.parts f)))
    path 0
    (take (length (Strict.parts f) `min` length (split path)) (split path)) ∅.
Proof.
  unfold Strict.ToMap. rewrite Strict_loop_take_toks, Nat.sub_0_r.
  set (n := length (Strict.parts f) `min` length (split path)).
  assert (take (length (Strict.parts f)) (split path) = take n (split path)) as ->.
  { destruct (decide (length (Strict.parts f) ≤ length (split path))).
    - by replace n with (length (Strict.parts f)) by lia.
    - rewrite !take_ge by lia. done. }
  apply Strict_loop_take_parts. rewrite length_take. lia.
Qed.

(** The lenient loop reads the path below the shorter length only, and
    only the named parts below it take part. *)
Lemma Lenient_fold_walk ptoks lt nps m :
  Forall (λ np, Lenient.index np < lt) nps →
  foldl (Lenient.ToMap_step ptoks) m nps =
  foldl (Lenient.ToMap_step (take (lt `min` length ptoks) ptoks)) m
    (filter (λ np, Lenient.index np < lt `min` length ptoks) nps).
Proof.
  intros Hnps. revert m. induction Hnps as [|np nps Hnp _ IH]; intros m; [done|].
  destruct (decide (Lenient.index np < lt `min` length ptoks)) as [Hlt|Hge].
  - rewrite filter_cons_True by done. simpl. rewrite IH. f_equal.
    unfold Lenient.ToMap_step. by rewrite lookup_take_lt.
  - rewrite filter_cons_False by done. simpl. rewrite IH. f_equal.
    unfold Lenient.ToMap_step. by rewrite (proj2 (lookup_ge_None _ _)) by lia.
Qed.

Lemma Lenient_ToMap_walk t path :
  Lenient.ToMap (Lenient.New t) path =
  foldl (Lenient.ToMap_step
           (take (length (split t) `min` length (split path)) (split path))) ∅
    (filter (λ np, Lenient.index np < length (split t) `min` length (split path))
       (Lenient.namedParts (Lenient.New t))).
Proof.
  unfold Lenient.ToMap. apply Lenient_fold_walk. simpl.
  eapply Forall_impl; [apply New_loop_bounds|]. simpl. intros; lia.
Qed.

End walking.

(** ** Claims about compiling and matching *)

Lemma bindings_empty_lookup vars toks (k v : string) :
  bindings vars toks ∅ !! k = Some v ↔
  ∃ i, vars !! i = Some (Some k) ∧ toks !! i = Some v ∧
       ∀ j, i < j → j < length toks → vars !! j ≠ Some (Some k).
Proof.
  rewrite bindings_lookup. split; [|by left].
  intros [?|[Hm _]]; [done|]. by rewrite lookup_empty in Hm.
Qed.

(** The strict [ToMap] returns a map exactly when no index holds a
    mismatch. *)
Lemma Strict_ToMap_inr_iff f path :
  (∃ m, Strict.ToMap f path = inr m) ↔ ¬ ∃ i, mismatch_at f path i.
Proof.
  split.
  - intros [m Hm] (i & p & s & Hp & Hs & Hv & Hne).
    destruct (Strict_loop_mismatch f path 0 (split path) ∅ i p s) as [e He];
      [done..|].
    unfold Strict.ToMap in Hm. congruence.
  - intros Hno. destruct (Strict.ToMap f path) as [e|m] eqn:Hrun; [|by eauto].
    apply Strict_loop_inl in Hrun as (j & p & s & Hp & Hs & Hv & Hne & _).
    destruct Hno. by exists j, p, s.
Qed.

(** C5.  [New] strips one leading [/] if there is one and splits the rest
    on [/]: the tokens are the one non-empty list of slash-free strings
    whose join is the rest.  Each token of the shape [{name}] gives a
    variable part named [name], every other token a static part holding the
    token; the lenient revision records the variable tokens, in order, with
    their index.  A template ending in [/] gets a last static part with
    empty text, and [/items/{id}/subitems/{subid}] compiles to static
    [items], variable [id], static [subitems], variable [subid]. *)
Theorem C5_New_compiles (t : string) :
  ((∃ r, t = "/" +:+ r ∧ Strings.TrimPrefix t "/" = r) ∨
   (Strings.HasPrefix t "/" = false ∧ Strings.TrimPrefix t "/" = t)) ∧
  (split t ≠ [] ∧
   Forall (λ tok, Strings.ContainsByte tok "/" = false) (split t) ∧
   Strings.Join (split t) "/" = Strings.TrimPrefix t "/" ∧
   ∀ toks, toks ≠ [] →
     Forall (λ tok, Strings.ContainsByte tok "/" = false) toks →
     Strings.Join toks "/" = Strings.TrimPrefix t "/" → toks = split t) ∧
  Strict.str (Strict.New t) = t ∧
  Forall2 (λ tok p,
      (∃ n, tok = "{" +:+ n +:+ "}" ∧ p = Strict.Variable_ n) ∨
      ((∀ n, tok ≠ "{" +:+ n +:+ "}") ∧ p = Strict.Static tok))
    (split t) (Strict.parts (Strict.New t)) ∧
  (∀ n i, Lenient.NamedPart n i ∈ Lenient.namedParts (Lenient.New t) ↔
          split t !! i = Some ("{" +:+ n +:+ "}")) ∧
  StronglySorted (λ a b, Lenient.index a < Lenient.index b)
    (Lenient.namedParts (Lenient.New t)) ∧
  (Strings.HasSuffix t "/" = true →
   last (Strict.parts (Strict.New t)) = Some (Strict.Static "")) ∧
  Strict.parts (Strict.New "/items/{id}/subitems/{subid}") =
    [Strict.Static "items"; Strict.Variable_ "id";
     Strict.Static "subitems"; Strict.Variable_ "subid"].
Proof.
  split; [apply TrimPrefix_slash|].
  split. { unfold split. split; [apply Split_nonempty|].
           split; [apply Split_no_sep|]. split; [apply Join_Split|].
           intros toks Hne Htoks <-. symmetry. by apply Split_Join. }
  split; [done|].
  split.
  { simpl. apply Forall2_fmap_r, Forall_Forall2_diag, Forall_true.
    intros tok. simpl. unfold Strict.new_part.
    destruct (braced tok) eqn:Hb.
    - left. apply braced_spec in Hb as [n ->]. exists n. by rewrite unbrace_app.
    - right. split; [|done]. intros n ->. by rewrite braced_app in Hb. }
  split.
  { intros n i. unfold Lenient.New. simpl. rewrite New_loop_elem.
    split; [by intros (d & -> & ?)|]. intros ?. by exists i. }
  split; [apply New_loop_sorted|].
  split; [|by vm_compute].
  intros Hs. simpl. rewrite fmap_last, (split_trailing_slash t Hs). done.
Qed.

Lemma C5_New_compiles_witness :
  last (Strict.parts (Strict.New "/items/")) = Some (Strict.Static "").
Proof.
  apply (C5_New_compiles "/items/"). vm_compute. reflexivity.
Defined.

(** C2, as the code has it.  [ToMap] walks the indices below the shorter of
    the template's and the path's segment counts.  Whenever it returns a
    map (the lenient revision always does, the strict one unless a static
    part differs from the path), the map holds, under each name, the path
    token at the highest index in range where a variable segment of that
    name stands, and nothing else: so every variable segment in range has
    its name bound, once, and of two segments of one name the higher index
    wins.  (The strict revision binds non-empty names only.) *)
Theorem C2_ToMap_binds_variables :
  (∀ (f : Strict.Format) (path : string) (m : gmap string string),
     Strict.ToMap f path = inr m →
     ∀ k v, m !! k = Some v ↔
       ∃ i p, Strict.parts f !! i = Some p ∧ Strict.variable p = k ∧ k ≠ "" ∧
              split path !! i = Some v ∧
              ∀ j q, i < j → j < length (split path) →
                     Strict.parts f !! j = Some q → Strict.variable q ≠ k) ∧
  (∀ (f : Strict.Format) (path : string),
     (∃ m, Strict.ToMap f path = inr m) ↔ ¬ ∃ i, mismatch_at f path i) ∧
  (∀ (f : Strict.Format) (path : string),
     Strict.ToMap f path =
     Strict.ToMap_loop
       (Strict.MkFormat (Strict.str f)
          (take (length (Strict.parts f) `min` length (split path))
             (Strict.parts f)))
       path 0
       (take (length (Strict.parts f) `min` length (split path)) (split path))
       ∅) ∧
  (∀ (t path k v : string),
     Lenient.ToMap (Lenient.New t) path !! k = Some v ↔
       ∃ i, split t !! i = Some ("{" +:+ k +:+ "}") ∧ split path !! i = Some v ∧
            ∀ j, i < j → j < length (split path) →
                 split t !! j ≠ Some ("{" +:+ k +:+ "}")) ∧
  (∀ (t path : string),
     Lenient.ToMap (Lenient.New t) path =
     foldl (Lenient.ToMap_step
              (take (length (split t) `min` length (split path)) (split path))) ∅
       (filter (λ np, Lenient.index np < length (split t) `min` length (split path))
          (Lenient.namedParts (Lenient.New t)))).
Proof.
  split; [|split; [apply Strict_ToMap_inr_iff|
    split; [apply Strict_ToMap_walk|split; [|apply Lenient_ToMap_walk]]]].
  - intros f path m ->%Strict_ToMap_bindings k v.
    rewrite bindings_empty_lookup. split.
    + intros (i & Hv & Ht & Hlast).
      rewrite list_lookup_fmap in Hv.
      destruct (Strict.parts f !! i) as [p|] eqn:Hp; [|done].
      injection Hv as [<- Hk]%var_of_spec.
      exists i, p. repeat split; [done..|].
      intros j q ?? Hq Hvq. apply (Hlast j); [done..|].
      rewrite list_lookup_fmap, Hq. simpl. f_equal. by apply var_of_spec.
    + intros (i & p & Hp & <- & Hk & Ht & Hlast).
      exists i. rewrite list_lookup_fmap, Hp. simpl.
      repeat split; [f_equal; by apply var_of_spec|done|].
      intros j ??. rewrite list_lookup_fmap.
      destruct (Strict.parts f !! j) as [q|] eqn:Hq; [|done].
      simpl. intros [= [Hvq _]%var_of_spec]. by apply (Hlast j q).
  - intros t path k v. rewrite Lenient_ToMap_bindings, bindings_empty_lookup.
    assert (∀ i, (name_of <$> split t) !! i = Some (Some k) ↔
                 split t !! i = Some ("{" +:+ k +:+ "}")) as Hname.
    { intros i. rewrite list_lookup_fmap.
      destruct (split t !! i) as [tok|]; simpl; [|done]. split.
      - by intros [= ->%name_of_spec].
      - intros [= ->]. f_equal. by apply name_of_spec. }
    split.
    + intros (i & Hv & Ht & Hlast). exists i. repeat split; [by apply Hname|done|].
      intros j ???. apply (Hlast j); [done..|]. by apply Hname.
    + intros (i & Hv & Ht & Hlast). exists i. repeat split; [by apply Hname|done|].
      intros j ???. apply (Hlast j); [done..|]. by apply Hname.
Qed.

Lemma C2_ToMap_binds_variables_witness :
  Strict.ToMap (Strict.New "/x/{id}/{id}") "/x/1/2" = inr {[ "id" := "2" ]} ∧
  ∃ i p, Strict.parts (Strict.New "/x/{id}/{id}") !! i = Some p ∧
    Strict.variable p = "id" ∧ "id" ≠ "" ∧ split "/x/1/2" !! i = Some "2" ∧
    ∀ j q, i < j → j < length (split "/x/1/2") →
      Strict.parts (Strict.New "/x/{id}/{id}") !! j = Some q →
      Strict.variable q ≠ "id".
Proof.
  assert (Strict.ToMap (Strict.New "/x/{id}/{id}") "/x/1/2" = inr {[ "id" := "2" ]})
    as Hrun by (vm_compute; reflexivity).
  split; [exact Hrun|].
  apply (proj1 C2_ToMap_binds_variables _ _ _ Hrun "id" "2").
  vm_compute. reflexivity.
Defined.

(** C2, as the specification states it, fails in the strict revision on a
    path with a static mismatch: the variable [id] stands at index 1, within
    the path's four tokens, and [ToMap] returns an error and no map, so
    nothing is bound to [id]. *)
Lemma C2_ToMap_binds_variables_counterexample :
  Strict.parts (Strict.New "/items/{id}/subitems/{subid}") !! 1
    = Some (Strict.Variable_ "id") ∧
  split "/items/123/invalid/456" !! 1 = Some "123" ∧
  ¬ ∃ m, Strict.ToMap (Strict.New "/items/{id}/subitems/{subid}")
           "/items/123/invalid/456" = inr m ∧
         m !! "id" = Some "123".
Proof.
  split; [by vm_compute|]. split; [by vm_compute|].
  intros (m & Hm & _). vm_compute in Hm. discriminate Hm.
Qed.

(** C3.  On a template all of whose variable names are non-empty, and a
    path on which the strict [ToMap] returns a map, the lenient [ToMap]
    returns the same map. *)
Theorem C3_lenient_agrees_with_strict (t path : string) (m : gmap string string) :
  (∀ k, "{" +:+ k +:+ "}" ∈ split t → k ≠ "") →
  Strict.ToMap (Strict.New t) path = inr m →
  Lenient.ToMap (Lenient.New t) path = m.
Proof.
  intros Hnames ->%Strict_ToMap_bindings.
  rewrite Lenient_ToMap_bindings. simpl. rewrite <-list_fmap_compose.
  f_equal. apply list_fmap_ext. intros i tok Htok. simpl.
  symmetry. apply var_of_new_part. intros ->.
  apply list_elem_of_lookup_2 in Htok. by apply (Hnames "").
Qed.

Lemma C3_lenient_agrees_with_strict_witness :
  Lenient.ToMap (Lenient.New "/items/{id}/subitems/{subid}")
    "/items/123/subitems/456" = {[ "id" := "123"; "subid" := "456" ]}.
Proof.
  apply C3_lenient_agrees_with_strict.
  - intros k Hin ->. vm_compute in Hin.
    repeat (apply elem_of_cons in Hin as [Hin|Hin]; [discriminate Hin|]).
    by apply elem_of_nil in Hin.
  - vm_compute. reflexivity.
Defined.

(** C4.  The strict [ToMap] fails on template
    [/items/{id}/subitems/{subid}] and path [/items/123/invalid/456].  In
    general it returns an error exactly when some index below both lengths
    holds a static part whose text differs from the path token there, and
    the error then carries the template string, the path string, and the
    expected and actual token of the first such index. *)
Theorem C4_strict_mismatch :
  Strict.ToMap (Strict.New "/items/{id}/subitems/{subid}") "/items/123/invalid/456"
    = inl (ErrMismatch "/items/{id}/subitems/{subid}" "/items/123/invalid/456"
             "subitems" "invalid") ∧
  (∀ (f : Strict.Format) (path : string),
     (∃ e, Strict.ToMap f path = inl e) ↔ ∃ i, mismatch_at f path i) ∧
  (∀ (f : Strict.Format) (path : string) (e : error),
     Strict.ToMap f path = inl e →
     ∃ i p s, Strict.parts f !! i = Some p ∧ split path !! i = Some s ∧
       Strict.variable p = "" ∧ Strict.static p ≠ s ∧
       (∀ j, j < i → ¬ mismatch_at f path j) ∧
       e = ErrMismatch (Strict.str f) path (Strict.static p) s).
Proof.
  split; [by vm_compute|]. split.
  - intros f path. split.
    + intros [e (j & p & s & Hp & Hs & Hv & Hne & _)%Strict_loop_inl].
      exists j, p, s. done.
    + intros (i & p & s & Hp & Hs & Hv & Hne).
      by apply (Strict_loop_mismatch f path 0 _ ∅ i p s).
  - intros f path e (j & p & s & Hp & Hs & Hv & Hne & -> & Hfirst)%Strict_loop_inl.
    exists j, p, s. repeat split; [done..|].
    intros j' Hlt (p' & s' & Hp' & Hs' & Hv' & Hne').
    apply Hne'. by apply (Hfirst j' p' s').
Qed.

Lemma C4_strict_mismatch_witness :
  ∃ i p s, Strict.parts (Strict.New "/a/b") !! i = Some p ∧
    split "/a/c" !! i = Some s ∧ Strict.variable p = "" ∧ Strict.static p ≠ s ∧
    (∀ j, j < i → ¬ mismatch_at (Strict.New "/a/b") "/a/c" j) ∧
    ErrMismatch "/a/b" "/a/c" "b" "c" =
      ErrMismatch (Strict.str (Strict.New "/a/b")) "/a/c" (Strict.static p) s.
Proof.
  apply (proj2 (proj2 C4_strict_mismatch) (Strict.New "/a/b") "/a/c").
  vm_compute. reflexivity.
Defined.

(** C10.  Splitting the empty path gives one empty token, not none.  So
    for a template whose first segment is a variable with a non-empty name,
    [ToMap] of the empty path succeeds, in both revisions, and binds that
    name to the empty string (and nothing else). *)
Theorem C10_empty_path (t k : string) :
  k ≠ "" →
  split t !! 0 = Some ("{" +:+ k +:+ "}") →
  split "" = [""] ∧
  Strict.ToMap (Strict.New t) "" = inr {[ k := "" ]} ∧
  Lenient.ToMap (Lenient.New t) "" = {[ k := "" ]}.
Proof.
  intros Hk Htok. split; [done|].
  destruct (split t) as [|tok toks] eqn:Hsplit; [done|].
  injection Htok as ->. split.
  - unfold Strict.ToMap, Strict.New. rewrite Hsplit.
    change (split "") with [""]. simpl.
    unfold Strict.new_part. rewrite braced_app, unbrace_app. simpl.
    rewrite decide_True by done. by rewrite insert_empty.
  - rewrite Lenient_ToMap_bindings, Hsplit. change (split "") with [""].
    simpl. rewrite bindings_nil_r.
    rewrite (proj2 (name_of_spec _ k)) by done. by rewrite insert_empty.
Qed.

Lemma C10_empty_path_witness :
  split "" = [""] ∧
  Strict.ToMap (Strict.New "/{id}/items") "" = inr {[ "id" := "" ]} ∧
  Lenient.ToMap (Lenient.New "/{id}/items") "" = {[ "id" := "" ]}.
Proof.
  apply (C10_empty_path "/{id}/items" "id").
  - discriminate.
  - vm_compute. reflexivity.
Defined.

(** ** Binding a struct *)

Section binding.
Context `{Strconv}.
Implicit Types (m : gmap string string) (ef : StructField).

(** The loop changes nothing but values, field by field, and what it
    leaves in a field is what the loop body made of it, if it got there. *)
Lemma bindFields_lookup m fs i ef :
  fs !! i = Some ef →
  ∃ ef', (bindFields m fs).1 !! i = Some ef' ∧
         (ef' = ef ∨ bindField m ef = inr ef').
Proof.
  revert i. induction fs as [|f0 fs IH]; intros i Hi; [done|].
  simpl. destruct (bindField m f0) as [err|f0'] eqn:Hf0.
  - exists ef. split; [done|by left].
  - destruct (bindFields m fs) as [fs' err] eqn:Hfs. simpl in *.
    destruct i as [|i]; simpl in *.
    + injection Hi as ->. exists f0'. split; [done|by right].
    + by apply IH.
Qed.

Lemma bindField_no_key m ef ef' :
  m !! TagGet ef = None → bindField m ef = inr ef' → ef' = ef.
Proof.
  unfold bindField. intros ->. destruct (CanSet ef); simpl.
  - by intros [= <-].
  - case_decide; [done|]. by intros [= <-].
Qed.

Lemma bindField_unsupported m ef ef' :
  supported (kind ef) = false → bindField m ef = inr ef' → ef' = ef.
Proof.
  unfold bindField. intros Hk. destruct (CanSet ef); simpl.
  - destruct (m !! TagGet ef); [|by intros [= <-]].
    destruct (kind ef); try discriminate Hk; by intros [= <-].
  - case_decide; [done|]. by intros [= <-].
Qed.

Lemma bindField_unsupported_settable m ef :
  CanSet ef = true → supported (kind ef) = false → bindField m ef = inr ef.
Proof.
  unfold bindField. intros -> Hk. simpl.
  destruct (m !! TagGet ef); [|done].
  by destruct (kind ef); try discriminate Hk.
Qed.

Lemma bindField_coercion_fails m ef v :
  CanSet ef = true → m !! TagGet ef = Some v → coercion_fails (kind ef) v →
  ∃ fn, bindField m ef = inl (ErrNum fn v).
Proof.
  unfold bindField, coercion_fails. intros -> -> Hfail. simpl.
  destruct (kind ef); try done; rewrite Hfail; eauto.
Qed.

(** The loop returns at the first field whose iteration fails: the fields
    before it keep what the loop gave them, the failing one and the ones
    after it are as they were. *)
Lemma bindFields_app_fail m pre pre' ef post err :
  bindFields m pre = (pre', None) → bindField m ef = inl err →
  bindFields m (pre ++ ef :: post) = (pre' ++ ef :: post, Some err).
Proof.
  revert pre'. induction pre as [|f0 pre IH]; intros pre' Hpre Hef; simpl in *.
  - injection Hpre as <-. by rewrite Hef.
  - destruct (bindField m f0) as [e0|f0']; [done|].
    destruct (bindFields m pre) as [pre0 e0] eqn:Hpre0.
    injection Hpre as <- ->. by rewrite (IH pre0).
Qed.

Lemma bindFields_all_unsupported m fs :
  Forall (λ ef, CanSet ef = true ∧ supported (kind ef) = false) fs →
  bindFields m fs = (fs, None).
Proof.
  induction 1 as [|ef fs [Hset Hk] _ IH]; [done|]. simpl.
  by rewrite bindField_unsupported_settable, IH.
Qed.

(** The loop, one iteration at a time. *)
Lemma bindFields_cons_inr m ef ef' rest :
  bindField m ef = inr ef' →
  bindFields m (ef :: rest) =
  (ef' :: (bindFields m rest).1, (bindFields m rest).2).
Proof. simpl. intros ->. by destruct (bindFields m rest). Qed.

Lemma bindField_skip m ef :
  CanSet ef = true → m !! TagGet ef = None → bindField m ef = inr ef.
Proof. unfold bindField. by intros -> ->. Qed.

Lemma bindField_String m ef v :
  CanSet ef = true → m !! TagGet ef = Some v → kind ef = reflect.String →
  bindField m ef = inr (SetString ef v).
Proof. unfold bindField. by intros -> -> ->. Qed.

Lemma bindField_Int m ef v n :
  CanSet ef = true → m !! TagGet ef = Some v → kind ef = reflect.Int →
  ParseInt v 64 = Some n → bindField m ef = inr (SetInt ef n).
Proof.
  unfold bindField. intros -> -> -> Hn.
  change (reflect.Bits reflect.Int) with 64. simpl. by rewrite Hn.
Qed.

Lemma bindStruct_fields m fs :
  bindStruct m (APtr (AStruct fs)) =
  (APtr (AStruct (bindFields m fs).1), (bindFields m fs).2).
Proof. simpl. by destruct (bindFields m fs). Qed.

(** A field stays as it was whenever the loop body, if it returns a field
    for it at all, returns it unchanged. *)
Lemma bindStruct_keeps m fs i ef :
  fs !! i = Some ef →
  (∀ ef', bindField m ef = inr ef' → ef' = ef) →
  ∃ fs' err, bindStruct m (APtr (AStruct fs)) = (APtr (AStruct fs'), err) ∧
             fs' !! i = Some ef.
Proof.
  intros Hi Hkeep. rewrite bindStruct_fields.
  destruct (bindFields_lookup m fs i ef Hi) as (ef' & Hef' & [->|Hb]).
  - eauto.
  - apply Hkeep in Hb as ->. eauto.
Qed.

Lemma Strict_ToStruct_keeps f s fs i ef :
  fs !! i = Some ef →
  (∀ m ef', Strict.ToMap f s = inr m → bindField m ef = inr ef' → ef' = ef) →
  ∃ fs' err, Strict.ToStruct f s (APtr (AStruct fs)) = (APtr (AStruct fs'), err) ∧
             fs' !! i = Some ef.
Proof.
  intros Hi Hkeep. unfold Strict.ToStruct.
  destruct (Strict.ToMap f s) as [e|m] eqn:Hm; [by eauto|].
  apply bindStruct_keeps; [done|]. intros ef'. by apply Hkeep.
Qed.

End binding.

(** ** Claims about binding *)

Lemma TagGet_Some ef tag : Tag ef = Some tag → TagGet ef = tag.
Proof. unfold TagGet. by intros ->. Qed.

(** One iteration of the field loop, by the lemma for the case it takes. *)
Ltac bind_step lem :=
  erewrite bindFields_cons_inr
    by (eapply lem; first [vm_compute; reflexivity | eassumption]).

(** The test case [missing-values] of [TestToStruct], on any earlier
    contents of the struct. *)
Lemma bind_missing_values `{Strconv} a0 b0 c0 d0 :
  ParseInt "123" 64 = Some 123%Z →
  bindStruct {[ "a" := "abc"; "b" := "123" ]} (APtr (AStruct (MyPath a0 b0 c0 d0)))
  = (APtr (AStruct (MyPath "abc" 123 c0 d0)), None).
Proof.
  intros Hparse. rewrite bindStruct_fields. unfold MyPath.
  bind_step bindField_String. bind_step bindField_Int.
  bind_step bindField_skip. bind_step bindField_skip.
  vm_compute. reflexivity.
Qed.

(** C7.  A tagged, settable field whose tag has no key in the map keeps
    the value it had before the call, whether [ToStruct] returns an error
    or not.  Binding [/a/abc/b/123] against [/a/{a}/b/{b}/c/{c}/d/{d}] sets
    [A] and [B] and leaves [C] and [D] as they were. *)
Theorem C7_missing_key_keeps_field `{Strconv} :
  (∀ (f : Strict.Format) (s : string) fs i ef tag,
     fs !! i = Some ef → Tag ef = Some tag → CanSet ef = true →
     (∀ m, Strict.ToMap f s = inr m → m !! tag = None) →
     ∃ fs' err,
       Strict.ToStruct f s (APtr (AStruct fs)) = (APtr (AStruct fs'), err) ∧
       fs' !! i = Some ef) ∧
  (∀ (f : Lenient.Format) (s : string) fs i ef tag,
     fs !! i = Some ef → Tag ef = Some tag → CanSet ef = true →
     Lenient.ToMap f s !! tag = None →
     ∃ fs' err,
       Lenient.ToStruct f s (APtr (AStruct fs)) = (APtr (AStruct fs'), err) ∧
       fs' !! i = Some ef) ∧
  (∀ a0 b0 c0 d0,
     ParseInt "123" 64 = Some 123%Z →
     Strict.ToStruct (Strict.New "/a/{a}/b/{b}/c/{c}/d/{d}") "/a/abc/b/123"
       (APtr (AStruct (MyPath a0 b0 c0 d0)))
     = (APtr (AStruct (MyPath "abc" 123 c0 d0)), None) ∧
     Lenient.ToStruct (Lenient.New "/a/{a}/b/{b}/c/{c}/d/{d}") "/a/abc/b/123"
       (APtr (AStruct (MyPath a0 b0 c0 d0)))
     = (APtr (AStruct (MyPath "abc" 123 c0 d0)), None)).
Proof.
  split; [|split].
  - intros f s fs i ef tag Hi Htag _ Hm.
    apply Strict_ToStruct_keeps; [done|]. intros m ef' Hmap.
    apply bindField_no_key. rewrite (TagGet_Some _ _ Htag). by apply Hm.
  - intros f s fs i ef tag Hi Htag _ Hm. unfold Lenient.ToStruct.
    apply bindStruct_keeps; [done|]. intros ef'.
    apply bindField_no_key. by rewrite (TagGet_Some _ _ Htag).
  - intros a0 b0 c0 d0 Hparse. split.
    + unfold Strict.ToStruct.
      assert (Strict.ToMap (Strict.New "/a/{a}/b/{b}/c/{c}/d/{d}") "/a/abc/b/123"
              = inr {[ "a" := "abc"; "b" := "123" ]}) as -> by (vm_compute; reflexivity).
      by apply bind_missing_values.
    + unfold Lenient.ToStruct.
      assert (Lenient.ToMap (Lenient.New "/a/{a}/b/{b}/c/{c}/d/{d}") "/a/abc/b/123"
              = {[ "a" := "abc"; "b" := "123" ]}) as -> by (vm_compute; reflexivity).
      by apply bind_missing_values.
Qed.

Lemma C7_missing_key_keeps_field_witness :
  (∃ fs' err,
     @Strict.ToStruct go_strconv (Strict.New "/a/{a}/b/{b}/c/{c}/d/{d}")
       "/a/abc/b/123" (APtr (AStruct (MyPath "" 0 7 false)))
     = (APtr (AStruct fs'), err) ∧
     fs' !! 2 = Some (MkField "C" (Some "c") true reflect.Float64 (VFloat 7))) ∧
  @Strict.ToStruct go_strconv (Strict.New "/a/{a}/b/{b}/c/{c}/d/{d}")
    "/a/abc/b/123" (APtr (AStruct (MyPath "" 0 7 false)))
  = (APtr (AStruct (MyPath "abc" 123 7 false)), None).
Proof.
  split.
  - apply (proj1 (@C7_missing_key_keeps_field go_strconv)) with (tag := "c").
    + reflexivity.
    + reflexivity.
    + reflexivity.
    + intros m Hm. vm_compute in Hm. injection Hm as <-. vm_compute. reflexivity.
  - apply (proj2 (proj2 (@C7_missing_key_keeps_field go_strconv)) "" 0%Z 7%Z false).
    vm_compute. reflexivity.
Defined.

(** C8.  When the parser for a field's kind rejects the value the map holds
    for it, [ToStruct] returns that error at once: the fields before the
    failing one keep the values the call gave them, and the failing field
    and the fields after it are as they were before the call. *)
Theorem C8_first_failure_stops `{Strconv} (m : gmap string string)
    (pre pre' post : list StructField) (ef : StructField) (v : string) :
  bindFields m pre = (pre', None) →
  CanSet ef = true → m !! TagGet ef = Some v → coercion_fails (kind ef) v →
  ∃ fn,
    (∀ (f : Strict.Format) (s : string),
       Strict.ToMap f s = inr m →
       Strict.ToStruct f s (APtr (AStruct (pre ++ ef :: post)))
       = (APtr (AStruct (pre' ++ ef :: post)), Some (ErrNum fn v))) ∧
    (∀ (f : Lenient.Format) (s : string),
       Lenient.ToMap f s = m →
       Lenient.ToStruct f s (APtr (AStruct (pre ++ ef :: post)))
       = (APtr (AStruct (pre' ++ ef :: post)), Some (ErrNum fn v))).
Proof.
  intros Hpre Hset Hv Hfail.
  destruct (bindField_coercion_fails m ef v Hset Hv Hfail) as [fn Hfn].
  exists fn.
  assert (bindStruct m (APtr (AStruct (pre ++ ef :: post)))
          = (APtr (AStruct (pre' ++ ef :: post)), Some (ErrNum fn v))) as Hbind.
  { rewrite bindStruct_fields.
    by rewrite (bindFields_app_fail m pre pre' ef post _ Hpre Hfn). }
  split.
  - intros f s Hm. unfold Strict.ToStruct. by rewrite Hm.
  - intros f s Hm. unfold Lenient.ToStruct. by rewrite Hm.
Qed.

Lemma C8_first_failure_stops_witness :
  ∃ fn,
    @Strict.ToStruct go_strconv (Strict.New "/a/{a}/b/{b}/c/{c}/d/{d}")
      "/a/abc/b/xyz" (APtr (AStruct (MyPath "" 0 0 false)))
    = (APtr (AStruct (MyPath "abc" 0 0 false)), Some (ErrNum fn "xyz")).
Proof.
  destruct (@C8_first_failure_stops go_strconv
              {[ "a" := "abc"; "b" := "xyz" ]}
              [MkField "A" (Some "a") true reflect.String (VString "")]
              [MkField "A" (Some "a") true reflect.String (VString "abc")]
              [MkField "C" (Some "c") true reflect.Float64 (VFloat 0);
               MkField "D" (Some "d") true reflect.Bool (VBool false)]
              (MkField "B" (Some "b") true reflect.Int (VInt 0)) "xyz")
    as [fn [Hstrict _]].
  - vm_compute. reflexivity.
  - reflexivity.
  - vm_compute. reflexivity.
  - vm_compute. reflexivity.
  - exists fn. apply Hstrict. vm_compute. reflexivity.
Defined.

(** C9.  A settable field whose kind the [switch] has no case for (a
    struct, a slice, a map, ...) is left as it is and causes no error,
    whatever the map holds under its tag. *)
Theorem C9_unsupported_kind_untouched `{Strconv} (ef : StructField) :
  CanSet ef = true → supported (kind ef) = false →
  (∀ m, bindField m ef = inr ef) ∧
  (∀ (f : Strict.Format) (s : string) fs i,
     fs !! i = Some ef →
     ∃ fs' err,
       Strict.ToStruct f s (APtr (AStruct fs)) = (APtr (AStruct fs'), err) ∧
       fs' !! i = Some ef) ∧
  (∀ (f : Lenient.Format) (s : string) fs i,
     fs !! i = Some ef →
     ∃ fs' err,
       Lenient.ToStruct f s (APtr (AStruct fs)) = (APtr (AStruct fs'), err) ∧
       fs' !! i = Some ef) ∧
  (∀ (f : Strict.Format) (s : string) m,
     Strict.ToMap f s = inr m →
     Strict.ToStruct f s (APtr (AStruct [ef])) = (APtr (AStruct [ef]), None)) ∧
  (∀ (f : Lenient.Format) (s : string),
     Lenient.ToStruct f s (APtr (AStruct [ef])) = (APtr (AStruct [ef]), None)).
Proof.
  intros Hset Hk.
  assert (∀ m, bindStruct m (APtr (AStruct [ef])) = (APtr (AStruct [ef]), None))
    as Hone.
  { intros m. rewrite bindStruct_fields, bindFields_all_unsupported; [done|].
    by repeat constructor. }
  split; [|split; [|split; [|split]]].
  - intros m. by apply bindField_unsupported_settable.
  - intros f s fs i Hi. apply Strict_ToStruct_keeps; [done|].
    intros m ef' _. by apply bindField_unsupported.
  - intros f s fs i Hi. apply bindStruct_keeps; [done|].
    intros ef'. by apply bindField_unsupported.
  - intros f s m Hm. unfold Strict.ToStruct. by rewrite Hm.
  - intros f s. apply Hone.
Qed.

Lemma C9_unsupported_kind_untouched_witness :
  @bindField go_strconv {[ "a" := "abc" ]}
    (MkField "A" (Some "a") true reflect.Slice (VOther "[]"))
  = inr (MkField "A" (Some "a") true reflect.Slice (VOther "[]")).
Proof.
  apply (@C9_unsupported_kind_untouched go_strconv
           (MkField "A" (Some "a") true reflect.Slice (VOther "[]")));
    reflexivity.
Defined.

(** The strict [ToMap] never binds the empty name. *)
Lemma Strict_ToMap_no_empty_key f path m :
  Strict.ToMap f path = inr m → m !! "" = None.
Proof.
  intros ->%Strict_ToMap_bindings.
  destruct (bindings _ _ _ !! "") as [v|] eqn:Hv; [|done].
  apply bindings_empty_lookup in Hv as (i & Hi & _).
  rewrite list_lookup_fmap in Hi.
  destruct (Strict.parts f !! i) as [p|]; [|done].
  injection Hi as [_ ?]%var_of_spec. done.
Qed.

(** So the strict [ToStruct] leaves every field without a [path] tag alone. *)
Lemma Strict_ToStruct_untagged_kept `{Strconv} f s fs i ef :
  fs !! i = Some ef → Tag ef = None →
  ∃ fs' err,
    Strict.ToStruct f s (APtr (AStruct fs)) = (APtr (AStruct fs'), err) ∧
    fs' !! i = Some ef.
Proof.
  intros Hi Htag. apply Strict_ToStruct_keeps; [done|].
  intros m ef' Hm. apply bindField_no_key.
  unfold TagGet. rewrite Htag. simpl. by apply (Strict_ToMap_no_empty_key f s).
Qed.

(** C1.  The lenient revision does set a field without a [path] tag: the
    template token [{}] makes [ToMap] bind the empty name, and the empty
    name is what [Tag.Get] returns for a field that has no tag.  The field
    loop, which both revisions share, sets an exported string field without
    a tag from any map that holds the empty key. *)
Theorem C1_lenient_sets_untagged_field `{Strconv} :
  Lenient.ToMap (Lenient.New "/{}") "/abc" = {[ "" := "abc" ]} ∧
  Lenient.ToStruct (Lenient.New "/{}") "/abc"
    (APtr (AStruct [MkField "X" None true reflect.String (VString "")]))
  = (APtr (AStruct [MkField "X" None true reflect.String (VString "abc")]), None) ∧
  (∀ (m : gmap string string) (v : string) (x : string) (old : value),
     m !! "" = Some v →
     bindField m (MkField x None true reflect.String old)
     = inr (MkField x None true reflect.String (VString v))).
Proof.
  assert (Lenient.ToMap (Lenient.New "/{}") "/abc" = {[ "" := "abc" ]}) as Hm
    by (vm_compute; reflexivity).
  split; [done|]. split.
  - unfold Lenient.ToStruct. rewrite Hm, bindStruct_fields.
    bind_step bindField_String. reflexivity.
  - intros m v x old Hv. by rewrite (bindField_String m _ v).
Qed.

Lemma C1_lenient_sets_untagged_field_witness :
  @bindField go_strconv {[ "" := "abc" ]}
    (MkField "X" None true reflect.String (VString "before"))
  = inr (MkField "X" None true reflect.String (VString "abc")).
Proof.
  apply (proj2 (proj2 (@C1_lenient_sets_untagged_field go_strconv))).
  vm_compute. reflexivity.
Defined.

(** ** Rendering and matching again *)

Section round_trip.
Context `{Strconv}.
Implicit Types (m : gmap string string) (fs : list StructField).

Lemma structField_loop_inr fs name v :
  Strict.structField_loop fs name = inr v →
  ∃ fld, fld ∈ fs ∧ TagGet fld = name ∧ exported fld = true ∧ v = Sprint (val fld).
Proof.
  induction fs as [|f0 fs IH]; simpl; [done|].
  case_decide as Htag.
  - destruct (exported f0) eqn:Hex; [|done]. intros [= <-].
    exists f0. split; [by left|done].
  - intros (fld & ? & ?)%IH. exists fld. split; [by right|done].
Qed.

(** On a struct whose tagged fields are slash-free strings, what
    [structField] returns for a non-empty name is such a string, held by a
    field that carries the name as its tag. *)
Lemma structField_string fs name v :
  slash_free_strings fs → name ≠ "" →
  Strict.structField (AStruct fs) name = inr v →
  ∃ fld, fld ∈ fs ∧ Tag fld = Some name ∧ val fld = VString v ∧
         Strings.ContainsByte v "/" = false.
Proof.
  intros Hfs Hname (fld & Hin & Htag & _ & ->)%structField_loop_inr.
  unfold TagGet in Htag. destruct (Tag fld) as [tag|] eqn:Ht; simpl in Htag;
    [subst tag|by subst name].
  unfold slash_free_strings in Hfs. rewrite Forall_forall in Hfs.
  destruct (Hfs fld Hin) as (v & Hv & Hslash); [by rewrite Ht|].
  exists fld. rewrite Hv. done.
Qed.

Lemma FromStruct_loop_inr ps s vals :
  Forall (λ p, Strict.variable p ≠ "") ps →
  Strict.FromStruct_loop ps s = inr vals →
  Forall2 (λ p v, Strict.structField s (Strict.variable p) = inr v) ps vals.
Proof.
  intros Hps. revert vals. induction Hps as [|p ps Hp _ IH]; intros vals; simpl.
  { intros [= <-]. constructor. }
  rewrite decide_True by done.
  destruct (Strict.structField s (Strict.variable p)) as [e|v] eqn:Hv; [done|].
  destruct (Strict.FromStruct_loop ps s) as [e|vs]; [done|].
  intros [= <-]. constructor; [done|]. by apply IH.
Qed.

Lemma bindings_mono vars toks m k :
  is_Some (m !! k) → is_Some (bindings vars toks m !! k).
Proof.
  revert toks m. induction vars as [|x vars IH]; intros toks m Hm; [done|].
  destruct toks as [|s toks]; [done|]. simpl. apply IH.
  destruct x as [k'|]; [|done].
  destruct (decide (k' = k)) as [->|]; [by rewrite lookup_insert_eq|].
  by rewrite lookup_insert_ne.
Qed.

Lemma bindings_is_Some vars toks m i k :
  vars !! i = Some (Some k) → i < length toks →
  is_Some (bindings vars toks m !! k).
Proof.
  revert toks m i. induction vars as [|x vars IH]; intros toks m i Hi Hlen; [done|].
  destruct toks as [|s toks]; [simpl in Hlen; lia|]. simpl in *.
  destruct i as [|i]; simpl in *.
  - injection Hi as ->. apply bindings_mono. by rewrite lookup_insert_eq.
  - apply (IH _ _ i); [done|lia].
Qed.

Lemma Join_String a x l sep :
  Strings.Join (String a x :: l) sep = String a (Strings.Join (x :: l) sep).
Proof. by destruct l. Qed.

(** The rendered path splits into the rendered values again. *)
Lemma split_rendered (pre : string) vals :
  vals ≠ [] →
  Forall (λ v, Strings.ContainsByte v "/" = false) vals →
  pre = "/" ∨ (pre = "" ∧ ∀ v, vals !! 0 = Some v → v ≠ "") →
  split (pre +:+ Strings.Join vals "/") = vals.
Proof.
  intros Hne Hvals Hpre. unfold split.
  destruct Hpre as [->|[-> Hfirst]].
  - rewrite TrimPrefix_app. by apply Split_Join.
  - rewrite app_empty_l. rewrite TrimPrefix_not; [by apply Split_Join|].
    destruct vals as [|v0 vals]; [done|].
    destruct v0 as [|a v0]; [by destruct (Hfirst "")|].
    rewrite Join_String, HasPrefix_byte. apply bool_decide_eq_false.
    inversion_clear Hvals as [|?? Hv0 _]. simpl in Hv0.
    apply orb_false_iff in Hv0 as [Ha _]. by apply bool_decide_eq_false in Ha.
Qed.

(** A template of variables only matches every path. *)
Lemma Strict_loop_only_variables f path i splt m :
  only_variables f →
  Strict.ToMap_loop f path i splt m =
  inr (bindings (drop i (var_of <$> Strict.parts f)) splt m).
Proof.
  intros Hf. destruct (Strict.ToMap_loop f path i splt m) as [e|m'] eqn:Hloop.
  - apply Strict_loop_inl in Hloop as (j & p & s & Hp & _ & Hv & _).
    unfold only_variables in Hf. rewrite Forall_lookup in Hf.
    by destruct (Hf _ _ Hp).
  - f_equal. by apply Strict_loop_bindings in Hloop.
Qed.

End round_trip.

(** C6, as the code has it.  For a template of variables only that begins
    with [/], or whose first variable is rendered as a non-empty string, and
    a struct whose tagged fields hold strings without [/]: when [FromStruct]
    renders a path, [ToMap] of that path succeeds and binds each variable
    of the template to the value of the field [FromStruct] read for it. *)
Theorem C6_round_trip `{Strconv} (f : Strict.Format) (fs : list StructField) :
  only_variables f → slash_free_strings fs →
  (Strings.HasPrefix (Strict.str f) "/" = true ∨
   ∀ p v, Strict.parts f !! 0 = Some p →
          Strict.structField (AStruct fs) (Strict.variable p) = inr v → v ≠ "") →
  round_trips f fs.
Proof.
  intros Hf Hfs Hpre path Hrender. unfold Strict.FromStruct in Hrender.
  destruct (Strict.FromStruct_loop (Strict.parts f) (AStruct fs)) as [e|vals]
    eqn:Hloop; [done|].
  injection Hrender as <-.
  apply FromStruct_loop_inr in Hloop; [|done].
  unfold Strict.ToMap. rewrite Strict_loop_only_variables by done.
  eexists. split; [done|]. rewrite drop_0.
  intros p [i Hp]%list_elem_of_lookup.
  destruct (Forall2_lookup_l _ _ _ _ _ Hloop Hp) as (v & Hv & Hfield).
  assert (Strict.variable p ≠ "") as Hname.
  { unfold only_variables in Hf. rewrite Forall_lookup in Hf. by apply (Hf i). }
  destruct (structField_string fs _ v Hfs Hname Hfield) as (fld & Hin & Htag & Hval & _).
  exists fld, v. repeat split; [done..|].
  assert (Forall (λ v, Strings.ContainsByte v "/" = false) vals) as Hvals.
  { apply Forall_lookup. intros j w Hw.
    destruct (Forall2_lookup_r _ _ _ _ _ Hloop Hw) as (q & Hq & Hqf).
    assert (Strict.variable q ≠ "") as Hqn.
    { unfold only_variables in Hf. rewrite Forall_lookup in Hf. by apply (Hf j). }
    by destruct (structField_string fs _ w Hfs Hqn Hqf) as (? & _ & _ & _ & ?). }
  rewrite split_rendered; [|by intros ->|done|].
  2:{ destruct (Strings.HasPrefix (Strict.str f) "/") eqn:E; [by left|].
      destruct Hpre as [?|Hfirst]; [done|]. right. split; [done|].
      intros w Hw.
      destruct (Forall2_lookup_r _ _ _ _ _ Hloop Hw) as (q & Hq & Hqf).
      by apply (Hfirst q). }
  assert (is_Some (bindings (var_of <$> Strict.parts f) vals ∅ !! Strict.variable p))
    as [w Hw].
  { apply (bindings_is_Some _ _ _ i).
    - rewrite list_lookup_fmap, Hp. simpl. f_equal. by apply var_of_spec.
    - by apply lookup_lt_Some in Hv. }
  rewrite Hw. f_equal.
  apply bindings_empty_lookup in Hw as (j & Hj & Hwj & _).
  rewrite list_lookup_fmap in Hj.
  destruct (Strict.parts f !! j) as [q|] eqn:Hq; [|done].
  injection Hj as [Hqp _]%var_of_spec.
  destruct (Forall2_lookup_l _ _ _ _ _ Hloop Hq) as (w' & Hw' & Hqf).
  rewrite Hqp in Hqf. congruence.
Qed.

Lemma C6_round_trip_witness :
  @round_trips go_strconv (Strict.New "/{a}/{b}")
    [ MkField "A" (Some "a") true reflect.String (VString "abc");
      MkField "B" (Some "b") true reflect.String (VString "x") ].
Proof.
  apply (@C6_round_trip go_strconv).
  - unfold only_variables. apply (bool_decide_unpack _). vm_compute. exact I.
  - repeat constructor; intros _; eexists; split; reflexivity.
  - left. vm_compute. reflexivity.
Defined.

(** C6, as the specification states it, fails on a template without a
    leading [/] when the first value is empty: [{a}/{b}] renders [A = ""],
    [B = "x"] as [/x], and [split] takes the slash for a leading one. *)
Lemma C6_round_trip_counterexample :
  only_variables (Strict.New "{a}/{b}") ∧
  slash_free_strings
    [ MkField "A" (Some "a") true reflect.String (VString "");
      MkField "B" (Some "b") true reflect.String (VString "x") ] ∧
  @Strict.FromStruct go_strconv (Strict.New "{a}/{b}")
    (AStruct [ MkField "A" (Some "a") true reflect.String (VString "");
               MkField "B" (Some "b") true reflect.String (VString "x") ])
  = inr "/x" ∧
  Strict.ToMap (Strict.New "{a}/{b}") "/x" = inr {[ "a" := "x" ]} ∧
  ¬ @round_trips go_strconv (Strict.New "{a}/{b}")
      [ MkField "A" (Some "a") true reflect.String (VString "");
        MkField "B" (Some "b") true reflect.String (VString "x") ].
Proof.
  assert (Strict.ToMap (Strict.New "{a}/{b}") "/x" = inr {[ "a" := "x" ]}) as Hmap
    by (vm_compute; reflexivity).
  split; [unfold only_variables; apply (bool_decide_unpack _); vm_compute; exact I|].
  split; [repeat constructor; intros _; eexists; split; reflexivity|].
  split; [vm_compute; reflexivity|].
  split; [exact Hmap|].
  intros Hrt. destruct (Hrt "/x") as (m & Hm & Hall); [vm_compute; reflexivity|].
  rewrite Hmap in Hm. injection Hm as <-.
  destruct (Hall (Strict.Variable_ "b")) as (fld & v & _ & _ & _ & _ & Hb).
  - vm_compute. right. left.
  - vm_compute in Hb. discriminate Hb.
Qed.

(** * Further properties of the code *)

(** ** The leading slash *)

(** What the strict loop returns as a map does not depend on the path
    string it was given for its error message. *)
Lemma Strict_loop_inr_path f path path' i splt m m' :
  Strict.ToMap_loop f path i splt m = inr m' →
  Strict.ToMap_loop f path' i splt m = inr m'.
Proof.
  revert i m. induction splt as [|s splt IH]; intros i m; simpl; [done|].
  destruct (Strict.parts f !! i) as [p|]; [|done].
  repeat case_decide; try done; apply IH.
Qed.

(** X1.  [split] strips one leading slash, so a path that does not begin
    with a slash and the same path with a slash put in front are the same
    to [ToMap], in both revisions, and a template with or without the
    leading slash compiles to the same parts. *)
Theorem leading_slash_is_optional (p : string) :
  Strings.HasPrefix p "/" = false →
  split ("/" +:+ p) = split p ∧
  (∀ f : Lenient.Format, Lenient.ToMap f ("/" +:+ p) = Lenient.ToMap f p) ∧
  (∀ (f : Strict.Format) m,
     Strict.ToMap f ("/" +:+ p) = inr m ↔ Strict.ToMap f p = inr m) ∧
  Lenient.New ("/" +:+ p) = Lenient.New p ∧
  Strict.parts (Strict.New ("/" +:+ p)) = Strict.parts (Strict.New p).
Proof.
  intros Hp.
  assert (split ("/" +:+ p) = split p) as Hsplit.
  { unfold split. by rewrite TrimPrefix_app, (TrimPrefix_not p). }
  split; [done|]. split; [|split; [|split]].
  - intros f. unfold Lenient.ToMap. by rewrite Hsplit.
  - intros f m. unfold Strict.ToMap. rewrite Hsplit.
    split; apply Strict_loop_inr_path.
  - unfold Lenient.New. by rewrite Hsplit.
  - unfold Strict.New. simpl. by rewrite Hsplit.
Qed.

Lemma leading_slash_is_optional_witness :
  split ("/" +:+ "items/123") = split "items/123" ∧
  (∀ f : Lenient.Format,
     Lenient.ToMap f ("/" +:+ "items/123") = Lenient.ToMap f "items/123") ∧
  (∀ (f : Strict.Format) m,
     Strict.ToMap f ("/" +:+ "items/123") = inr m ↔
     Strict.ToMap f "items/123" = inr m) ∧
  Lenient.New ("/" +:+ "items/123") = Lenient.New "items/123" ∧
  Strict.parts (Strict.New ("/" +:+ "items/123")) =
  Strict.parts (Strict.New "items/123").
Proof. apply leading_slash_is_optional. vm_compute. reflexivity. Defined.

(** ** What [ToStruct] and [FromStruct] take *)

Lemma FromStruct_loop_not_struct `{Strconv} ps s :
  (∀ fs, s ≠ AStruct fs) →
  Exists (λ p, Strict.variable p ≠ "") ps →
  Strict.FromStruct_loop ps s = inl (ErrExpectedStruct (KindOf s)).
Proof.
  intros Hs Hex.
  assert (∀ name, Strict.structField s name = inl (ErrExpectedStruct (KindOf s)))
    as Hfield.
  { intros name. destruct s; try done. by destruct (Hs fields). }
  induction ps as [|p ps IH]; [by apply Exists_nil in Hex|]. simpl.
  case_decide as Hv.
  - by rewrite Hfield.
  - apply Exists_cons in Hex as [?|Hex]; [done|]. by rewrite IH.
Qed.

(** X2.  [ToStruct] returns no error only for a pointer to a struct, and
    [FromStruct] takes a struct only: a value that [ToStruct] has filled
    without error is refused by [FromStruct] with "expected struct, got
    ptr", for every template that has a variable. *)
Theorem ToStruct_value_refused_by_FromStruct `{Strconv}
    (f : Strict.Format) (s : string) (x x' : any) :
  Strict.ToStruct f s x = (x', None) →
  (∃ fs fs', x = APtr (AStruct fs) ∧ x' = APtr (AStruct fs') ∧
             length fs' = length fs) ∧
  ∀ g : Strict.Format,
    Exists (λ p, Strict.variable p ≠ "") (Strict.parts g) →
    Strict.FromStruct g x' = inl (ErrExpectedStruct reflect.Pointer).
Proof.
  unfold Strict.ToStruct. destruct (Strict.ToMap f s) as [e|m]; [done|].
  destruct x as [|el| |]; try done. destruct el as [fs| | |]; try done.
  rewrite bindStruct_fields. intros [= <- Herr].
  split.
  - exists fs, (bindFields m fs).1. repeat split.
    clear Herr. induction fs as [|ef fs IH]; [done|]. simpl.
    destruct (bindField m ef); [done|].
    destruct (bindFields m fs). simpl in *. by rewrite IH.
  - intros g Hg. unfold Strict.FromStruct.
    by rewrite FromStruct_loop_not_struct.
Qed.

Lemma ToStruct_value_refused_by_FromStruct_witness :
  @Strict.FromStruct go_strconv (Strict.New "/a/{a}")
    (APtr (AStruct [MkField "A" (Some "a") true reflect.String (VString "abc")]))
  = inl (ErrExpectedStruct reflect.Pointer).
Proof.
  apply (@ToStruct_value_refused_by_FromStruct go_strconv
           (Strict.New "/a/{a}") "/a/abc"
           (APtr (AStruct [MkField "A" (Some "a") true reflect.String (VString "")]))).
  - vm_compute. reflexivity.
  - apply (bool_decide_unpack _). vm_compute. exact I.
Defined.

(** X3.  In the strict revision a static mismatch is found before the
    argument is looked at: [ToStruct] returns the mismatch error and leaves
    the argument as it was, whatever it is, so no field is set. *)
Theorem Strict_ToStruct_mismatch_first `{Strconv} (f : Strict.Format)
    (path : string) (i : nat) :
  mismatch_at f path i →
  ∃ expected got,
    ∀ x, Strict.ToStruct f path x =
         (x, Some (ErrMismatch (Strict.str f) path expected got)).
Proof.
  intros (p & s & Hp & Hs & Hv & Hne).
  destruct (Strict_loop_mismatch f path 0 (split path) ∅ i p s) as [e He];
    [done..|].
  apply Strict_loop_inl in He as Hform.
  destruct Hform as (j & q & t & _ & _ & _ & _ & -> & _).
  exists (Strict.static q), t. intros x. unfold Strict.ToStruct, Strict.ToMap.
  by rewrite He.
Qed.

Lemma Strict_ToStruct_mismatch_first_witness :
  ∃ expected got,
    ∀ x, @Strict.ToStruct go_strconv (Strict.New "/a/{a}") "/b/abc" x =
         (x, Some (ErrMismatch "/a/{a}" "/b/abc" expected got)).
Proof.
  apply (@Strict_ToStruct_mismatch_first go_strconv (Strict.New "/a/{a}") "/b/abc" 0).
  exists (Strict.Static "a"), "b". vm_compute. repeat split. discriminate.
Defined.

(** ** More on the field loop *)

(** X4.  An unexported field with a non-empty [path] tag stops [ToStruct]
    with an error that names the tag and the field, whether or not the map
    has a key for the tag; the fields before it keep what the call gave
    them and the fields after it are not visited.  An unexported field
    without a tag (or with the empty tag) is passed over. *)
Theorem private_tagged_field_stops `{Strconv} (m : gmap string string)
    (pre pre' post : list StructField) (ef : StructField) (tag : string) :
  bindFields m pre = (pre', None) →
  exported ef = false → Tag ef = Some tag → tag ≠ "" →
  (∀ (f : Strict.Format) (s : string),
     Strict.ToMap f s = inr m →
     Strict.ToStruct f s (APtr (AStruct (pre ++ ef :: post)))
     = (APtr (AStruct (pre' ++ ef :: post)), Some (ErrPrivateField tag (Name ef)))) ∧
  (∀ (f : Lenient.Format) (s : string),
     Lenient.ToMap f s = m →
     Lenient.ToStruct f s (APtr (AStruct (pre ++ ef :: post)))
     = (APtr (AStruct (pre' ++ ef :: post)), Some (ErrPrivateField tag (Name ef)))) ∧
  (∀ other, exported other = false → TagGet other = "" →
     bindFields m (pre ++ other :: post)
     = (pre' ++ other :: (bindFields m post).1, (bindFields m post).2)).
Proof.
  intros Hpre Hex Htag Hne.
  assert (bindField m ef = inl (ErrPrivateField tag (Name ef))) as Hef.
  { unfold bindField, CanSet. rewrite Hex, (TagGet_Some _ _ Htag). simpl.
    by rewrite decide_True. }
  assert (bindStruct m (APtr (AStruct (pre ++ ef :: post)))
          = (APtr (AStruct (pre' ++ ef :: post)),
             Some (ErrPrivateField tag (Name ef)))) as Hbind.
  { rewrite bindStruct_fields.
    by rewrite (bindFields_app_fail m pre pre' ef post _ Hpre Hef). }
  split; [|split].
  - intros f s Hm. unfold Strict.ToStruct. by rewrite Hm.
  - intros f s Hm. unfold Lenient.ToStruct. by rewrite Hm.
  - intros other Hoex Hotag.
    assert (bindField m other = inr other) as Hother.
    { unfold bindField, CanSet. by rewrite Hoex, Hotag. }
    clear Hef Hbind. revert pre' Hpre.
    induction pre as [|f0 pre IH]; intros pre' Hpre; simpl in *.
    + injection Hpre as <-. rewrite Hother. by destruct (bindFields m post).
    + destruct (bindField m f0) as [e0|f0']; [done|].
      destruct (bindFields m pre) as [pre0 e0] eqn:Hpre0.
      injection Hpre as <- ->. by rewrite (IH pre0).
Qed.

Lemma private_tagged_field_stops_witness :
  @Lenient.ToStruct go_strconv (Lenient.New "/a/{a}/b/{b}") "/a/abc"
    (APtr (AStruct [ MkField "A" (Some "a") true reflect.String (VString "");
                     MkField "b" (Some "b") false reflect.Int (VInt 0);
                     MkField "C" (Some "a") true reflect.String (VString "") ]))
  = (APtr (AStruct [ MkField "A" (Some "a") true reflect.String (VString "abc");
                     MkField "b" (Some "b") false reflect.Int (VInt 0);
                     MkField "C" (Some "a") true reflect.String (VString "") ]),
     Some (ErrPrivateField "b" "b")).
Proof.
  assert (@bindFields go_strconv {[ "a" := "abc" ]}
            [MkField "A" (Some "a") true reflect.String (VString "")]
          = ([MkField "A" (Some "a") true reflect.String (VString "abc")], None))
    as Hpre by (vm_compute; reflexivity).
  assert ("b" ≠ "") as Hne by discriminate.
  apply (proj1 (proj2 (@private_tagged_field_stops go_strconv _ _ _
           [MkField "C" (Some "a") true reflect.String (VString "")]
           (MkField "b" (Some "b") false reflect.Int (VInt 0)) "b"
           Hpre eq_refl eq_refl Hne))).
  vm_compute. reflexivity.
Defined.

(** What the loop body gives a field does not depend on the value the field
    held: running it on its own result changes nothing. *)
Lemma bindField_idempotent `{Strconv} m ef ef' :
  bindField m ef = inr ef' → bindField m ef' = inr ef'.
Proof.
  unfold bindField, CanSet, TagGet.
  destruct (exported ef) eqn:Hex; simpl.
  - destruct (m !! default "" (Tag ef)) as [v|] eqn:Hv.
    + destruct (kind ef) eqn:Hk; simpl;
        lazymatch goal with
        | |- match ?o with Some _ => _ | None => _ end = _ → _ =>
            destruct o eqn:Hp; [|done]
        | |- _ => idtac
        end;
        intros [= <-];
        unfold SetBool, SetInt, SetUint, SetFloat, SetString, with_val;
        simpl; rewrite Hex, Hv, Hk; simpl; rewrite ?Hp; simpl; by rewrite ?Hk.
    + intros [= <-]. by rewrite Hex, Hv.
  - case_decide as Htag; [done|]. intros [= <-]. rewrite Hex. simpl.
    by rewrite Htag.
Qed.

Lemma bindFields_idempotent `{Strconv} m fs fs' :
  bindFields m fs = (fs', None) → bindFields m fs' = (fs', None).
Proof.
  revert fs'. induction fs as [|ef fs IH]; intros fs'; simpl.
  { by intros [= <-]. }
  destruct (bindField m ef) as [e|ef'] eqn:Hef; [done|].
  destruct (bindFields m fs) as [fs0 e0] eqn:Hfs. intros [= <- ->].
  simpl. by rewrite (bindField_idempotent _ _ _ Hef), (IH fs0).
Qed.

(** X5.  A call of [ToStruct] that returns no error can be repeated on the
    struct it has filled: the second call returns no error either and
    leaves every field as the first call set it. *)
Theorem ToStruct_idempotent `{Strconv} :
  (∀ (f : Strict.Format) (s : string) (x x' : any),
     Strict.ToStruct f s x = (x', None) → Strict.ToStruct f s x' = (x', None)) ∧
  (∀ (f : Lenient.Format) (s : string) (x x' : any),
     Lenient.ToStruct f s x = (x', None) → Lenient.ToStruct f s x' = (x', None)).
Proof.
  assert (∀ m x x', bindStruct m x = (x', None) → bindStruct m x' = (x', None))
    as Hbind.
  { intros m x x'. destruct x as [|el| |]; try done.
    destruct el as [fs| | |]; try done.
    rewrite bindStruct_fields. intros [= <- Herr].
    rewrite bindStruct_fields.
    destruct (bindFields m fs) as [fs' e] eqn:Hfs. simpl in *. subst e.
    by rewrite (bindFields_idempotent _ _ _ Hfs). }
  split.
  - intros f s x x'. unfold Strict.ToStruct.
    destruct (Strict.ToMap f s) as [e|m]; [done|]. apply Hbind.
  - intros f s x x'. apply Hbind.
Qed.

Lemma ToStruct_idempotent_witness :
  @Strict.ToStruct go_strconv (Strict.New "/a/{a}/b/{b}") "/a/abc/b/0x10"
    (APtr (AStruct (MyPath "abc" 16 0 false)))
  = (APtr (AStruct (MyPath "abc" 16 0 false)), None).
Proof.
  apply (proj1 (@ToStruct_idempotent go_strconv) _ _
           (APtr (AStruct (MyPath "" 0 0 false)))).
  vm_compute. reflexivity.
Defined.

(** ** Integers are stored as parsed *)

Lemma wrap_signed_small (b : nat) (x : Z) :
  0 < b → (- 2 ^ (Z.of_nat b - 1) ≤ x < 2 ^ (Z.of_nat b - 1))%Z →
  wrap_signed b x = x.
Proof.
  intros Hb Hx. unfold wrap_signed.
  assert (2 ^ Z.of_nat b = 2 * 2 ^ (Z.of_nat b - 1))%Z as Hpow.
  { rewrite <-Z.pow_succ_r by lia. f_equal. lia. }
  rewrite Z.mod_small by lia. lia.
Qed.

Lemma wrap_unsigned_small (b : nat) (x : Z) :
  (0 ≤ x < 2 ^ Z.of_nat b)%Z → wrap_unsigned b x = x.
Proof. intros Hx. unfold wrap_unsigned. by apply Z.mod_small. Qed.

(** The instance keeps to the bit size it is given. *)
Lemma strconv_bit_size b b' : 0 < b → strconv.bit_size b = Some b' → b' = b.
Proof.
  unfold strconv.bit_size. intros Hb. rewrite decide_False by lia.
  case_decide; [|done]. by intros [= <-].
Qed.

Lemma strconv_ParseInt_range s b n :
  0 < b → strconv.ParseInt s b = Some n →
  (- 2 ^ (Z.of_nat b - 1) ≤ n < 2 ^ (Z.of_nat b - 1))%Z.
Proof.
  intros Hb. unfold strconv.ParseInt.
  match goal with
  | |- context [let '(_, _) := ?t in _] => destruct t as [neg r]
  end.
  destruct (strconv.bit_size b) as [b'|] eqn:Hsize; [|done].
  apply strconv_bit_size in Hsize as ->; [|done].
  destruct (strconv.parse_magnitude r) as [k|]; [|done].
  assert (0 < 2 ^ (Z.of_nat b - 1))%Z by (apply Z.pow_pos_nonneg; lia).
  destruct neg.
  - destruct (Z.leb_spec (Z.of_N k) (2 ^ (Z.of_nat b - 1))); [|done].
    intros [= <-]. lia.
  - destruct (Z.ltb_spec (Z.of_N k) (2 ^ (Z.of_nat b - 1))); [|done].
    intros [= <-]. lia.
Qed.

Lemma strconv_ParseUint_range s b n :
  0 < b → strconv.ParseUint s b = Some n → (0 ≤ n < 2 ^ Z.of_nat b)%Z.
Proof.
  intros Hb. unfold strconv.ParseUint.
  destruct (strconv.bit_size b) as [b'|] eqn:Hsize; [|done].
  apply strconv_bit_size in Hsize as ->; [|done].
  destruct (strconv.parse_magnitude s) as [k|]; [|done].
  destruct (Z.leb_spec (Z.of_N k) (2 ^ Z.of_nat b - 1)); [|done].
  intros [= <-]. lia.
Qed.

(** X6.  [ToStruct] hands the parser the bit size of the field, so with a
    parser that keeps its results within the bit size it was given, an
    integer field is set to exactly the number the parser read: a value
    that does not fit the field is an error of the parser, never a
    truncated number in the struct. *)
Theorem integer_fields_hold_the_parsed_number `{Strconv}
    (m : gmap string string) (ef ef' : StructField) (v : string) :
  (∀ s b n, 0 < b → ParseInt s b = Some n →
            (- 2 ^ (Z.of_nat b - 1) ≤ n < 2 ^ (Z.of_nat b - 1))%Z) →
  (∀ s b n, 0 < b → ParseUint s b = Some n → (0 ≤ n < 2 ^ Z.of_nat b)%Z) →
  CanSet ef = true → m !! TagGet ef = Some v → bindField m ef = inr ef' →
  (kind ef ∈ [reflect.Int; reflect.Int8; reflect.Int16; reflect.Int32;
              reflect.Int64] →
   ∃ n, ParseInt v (reflect.Bits (kind ef)) = Some n ∧ val ef' = VInt n) ∧
  (kind ef ∈ [reflect.Uint; reflect.Uint8; reflect.Uint16; reflect.Uint32;
              reflect.Uint64; reflect.Uintptr] →
   ∃ n, ParseUint v (reflect.Bits (kind ef)) = Some n ∧ val ef' = VUint n).
Proof.
  intros Hint Huint Hset Hv. unfold bindField. rewrite Hset, Hv. simpl.
  assert (∀ k n, 0 < reflect.Bits k →
            ParseInt v (reflect.Bits k) = Some n →
            wrap_signed (reflect.Bits k) n = n) as Hws.
  { intros k n Hk Hn. apply wrap_signed_small; [done|]. by apply (Hint v). }
  assert (∀ k n, 0 < reflect.Bits k →
            ParseUint v (reflect.Bits k) = Some n →
            wrap_unsigned (reflect.Bits k) n = n) as Hwu.
  { intros k n Hk Hn. apply wrap_unsigned_small. by apply (Huint v). }
  destruct (kind ef) eqn:Hk; intros Hbind; split; intros Hin;
    try (exfalso;
         by (repeat (apply elem_of_cons in Hin as [Hin|Hin]; [discriminate Hin|]);
             apply elem_of_nil in Hin)).
  all: lazymatch type of Hbind with
       | match ?o with Some _ => _ | None => _ end = _ =>
           destruct o as [n|] eqn:Hn; [|done]
       end.
  all: injection Hbind as <-; exists n; (split; [first [exact Hn|reflexivity]|]).
  all: unfold SetInt, SetUint, with_val; simpl; rewrite Hk; f_equal.
  all: first [apply Hws | apply Hwu]; [vm_compute; lia|exact Hn].
Qed.

Lemma integer_fields_hold_the_parsed_number_witness :
  ∃ n, strconv.ParseInt "-128" 8 = Some n ∧
       val (MkField "B" (Some "b") true reflect.Int8 (VInt (-128))) = VInt n.
Proof.
  assert (({[ "b" := "-128" ]} : gmap string string)
            !! TagGet (MkField "B" (Some "b") true reflect.Int8 (VInt 0))
          = Some "-128") as Hv by (vm_compute; reflexivity).
  assert (@bindField go_strconv {[ "b" := "-128" ]}
            (MkField "B" (Some "b") true reflect.Int8 (VInt 0))
          = inr (MkField "B" (Some "b") true reflect.Int8 (VInt (-128))))
    as Hbind by (vm_compute; reflexivity).
  apply (proj1 (@integer_fields_hold_the_parsed_number go_strconv
           {[ "b" := "-128" ]}
           (MkField "B" (Some "b") true reflect.Int8 (VInt 0))
           (MkField "B" (Some "b") true reflect.Int8 (VInt (-128))) "-128"
           strconv_ParseInt_range strconv_ParseUint_range eq_refl Hv Hbind)).
  by apply (bool_decide_unpack _).
Defined.

(** ** Rendering what was bound *)

Section rendering.
Context `{Strconv}.
Implicit Types (m : gmap string string) (fs : list StructField).

(** On exported string fields the loop cannot fail, and it sets each field
    whose tag is a key of the map to the value under that key. *)
Lemma bindFields_strings m fs :
  Forall (λ fld, exported fld = true ∧ kind fld = reflect.String) fs →
  bindFields m fs =
  ((λ fld, match m !! TagGet fld with
           | Some v => SetString fld v
           | None => fld
           end) <$> fs, None).
Proof.
  induction 1 as [|fld fs [Hex Hk] _ IH]; [done|]. simpl.
  unfold bindField at 1. unfold CanSet. rewrite Hex. simpl.
  destruct (m !! TagGet fld) as [v|]; rewrite ?Hk, IH; done.
Qed.

Lemma structField_loop_bound m fs name v :
  Forall (λ fld, exported fld = true ∧ kind fld = reflect.String) fs →
  (∃ fld, fld ∈ fs ∧ TagGet fld = name) → m !! name = Some v →
  Strict.structField_loop
    ((λ fld, match m !! TagGet fld with
             | Some v => SetString fld v
             | None => fld
             end) <$> fs) name = inr v.
Proof.
  intros Hfs (fld & Hin & Htag) Hv.
  induction Hfs as [|f0 fs [Hex Hk] _ IH]; [by apply elem_of_nil in Hin|].
  simpl. destruct (decide (TagGet f0 = name)) as [Hf0|Hf0].
  - rewrite Hf0, Hv. simpl. rewrite decide_True by done. by rewrite Hex.
  - assert (TagGet (match m !! TagGet f0 with
                    | Some v => SetString f0 v
                    | None => f0
                    end) = TagGet f0) as Hsame by (by destruct (m !! TagGet f0)).
    rewrite decide_False by (by rewrite Hsame).
    apply IH. apply elem_of_cons in Hin as [->|Hin]; [done|done].
Qed.

Lemma FromStruct_loop_Forall2 ps s vals :
  Forall2 (λ p v, if decide (Strict.variable p ≠ "")
                  then Strict.structField s (Strict.variable p) = inr v
                  else Strict.static p = v) ps vals →
  Strict.FromStruct_loop ps s = inr vals.
Proof.
  induction 1 as [|p v ps vals Hpv _ IH]; [done|]. simpl.
  case_decide; [by rewrite Hpv, IH|by rewrite IH, Hpv].
Qed.

End rendering.

(** X7.  Binding and rendering are inverse to each other on paths as long as
    the template: when [ToStruct] has filled a struct of exported string
    fields from a path with as many segments as the template, no variable
    occurs twice in the template and each has a field, [FromStruct] renders
    the struct to the path again, up to the leading slash, which it takes
    from the template. *)
Theorem ToStruct_then_FromStruct `{Strconv} (f : Strict.Format) (path : string)
    (fs fs' : list StructField) :
  Strict.ToStruct f path (APtr (AStruct fs)) = (APtr (AStruct fs'), None) →
  length (split path) = length (Strict.parts f) →
  (∀ i j p q, Strict.parts f !! i = Some p → Strict.parts f !! j = Some q →
              Strict.variable p ≠ "" → Strict.variable p = Strict.variable q →
              i = j) →
  Forall (λ fld, exported fld = true ∧ kind fld = reflect.String) fs →
  (∀ p, p ∈ Strict.parts f → Strict.variable p ≠ "" →
        ∃ fld, fld ∈ fs ∧ Tag fld = Some (Strict.variable p)) →
  Strict.FromStruct f (AStruct fs') =
    inr ((if Strings.HasPrefix (Strict.str f) "/" then "/" else "")
         +:+ Strings.TrimPrefix path "/") ∧
  (Strings.HasPrefix (Strict.str f) "/" = Strings.HasPrefix path "/" →
   Strict.FromStruct f (AStruct fs') = inr path).
Proof.
  intros Hrun Hlen Hnodup Hfs Hfields.
  unfold Strict.ToStruct in Hrun.
  destruct (Strict.ToMap f path) as [e|m] eqn:Hmap; [by injection Hrun|].
  rewrite bindStruct_fields, (bindFields_strings m fs Hfs) in Hrun.
  simpl in Hrun. injection Hrun as <-.
  assert (Strict.FromStruct f
            (AStruct ((λ fld, match m !! TagGet fld with
                              | Some v => SetString fld v
                              | None => fld
                              end) <$> fs)) =
          inr ((if Strings.HasPrefix (Strict.str f) "/" then "/" else "")
               +:+ Strings.TrimPrefix path "/")) as Hrender.
  { unfold Strict.FromStruct.
    rewrite (FromStruct_loop_Forall2 _ _ (split path)).
    { unfold split at 1. by rewrite Join_Split. }
    apply Forall2_same_length_lookup_2; [done|].
    intros i p tok Hp Htok. case_decide as Hv.
    - simpl. apply structField_loop_bound; [done| |].
      + destruct (Hfields p) as (fld & Hin & Htag);
          [by eapply list_elem_of_lookup_2|done|].
        exists fld. split; [done|]. by apply TagGet_Some.
      + rewrite (Strict_ToMap_bindings _ _ _ Hmap). apply bindings_empty_lookup.
        exists i. rewrite list_lookup_fmap, Hp. simpl.
        repeat split; [f_equal; by apply var_of_spec|done|].
        intros j Hij _. rewrite list_lookup_fmap.
        destruct (Strict.parts f !! j) as [q|] eqn:Hq; [|done]. simpl.
        intros [= [Hqv _]%var_of_spec].
        assert (i = j) by (by apply (Hnodup i j p q)). lia.
    - destruct (decide (Strict.static p = tok)) as [|Hne]; [done|].
      assert (∃ m', Strict.ToMap f path = inr m') as Hok by eauto.
      apply Strict_ToMap_inr_iff in Hok. destruct Hok.
      exists i, p, tok. repeat split; [done..| |done].
      by destruct (decide (Strict.variable p = "")). }
  split; [done|].
  intros Hpre. rewrite Hrender. f_equal.
  destruct (TrimPrefix_slash path) as [(r & -> & ->)|[Hno ->]].
  - rewrite Hpre. replace (Strings.HasPrefix ("/" +:+ r) "/") with true; [done|].
    symmetry. apply HasPrefix_spec. by exists r.
  - by rewrite Hpre, Hno.
Qed.

Lemma ToStruct_then_FromStruct_witness :
  @Strict.FromStruct go_strconv (Strict.New "/a/{a}/b/{b}")
    (AStruct [ MkField "A" (Some "a") true reflect.String (VString "abc");
               MkField "B" (Some "b") true reflect.String (VString "xyz") ])
  = inr "/a/abc/b/xyz".
Proof.
  apply (@ToStruct_then_FromStruct go_strconv (Strict.New "/a/{a}/b/{b}")
           "/a/abc/b/xyz"
           [ MkField "A" (Some "a") true reflect.String (VString "");
             MkField "B" (Some "b") true reflect.String (VString "") ]).
  - vm_compute. reflexivity.
  - vm_compute. reflexivity.
  - intros i j p q Hp Hq Hv Hpq.
    destruct i as [|[|[|[|i]]]]; destruct j as [|[|[|[|j]]]];
      vm_compute in Hp, Hq; simplify_eq; try done; by destruct Hv.
  - repeat constructor.
  - intros p Hp Hv.
    assert (Strict.parts (Strict.New "/a/{a}/b/{b}") =
            [Strict.Static "a"; Strict.Variable_ "a";
             Strict.Static "b"; Strict.Variable_ "b"]) as Hparts
      by (vm_compute; reflexivity).
    rewrite Hparts in Hp.
    apply elem_of_cons in Hp as [->|Hp]; [by destruct Hv|].
    apply elem_of_cons in Hp as [->|Hp]; [eexists; split; [by left|done]|].
    apply elem_of_cons in Hp as [->|Hp]; [by destruct Hv|].
    apply elem_of_cons in Hp as [->|Hp]; [eexists; split; [right; by left|done]|].
    by apply elem_of_nil in Hp.
  - vm_compute. reflexivity.
Defined.

(** X8.  A template none of whose tokens has the shape [{...}] renders to
    the template string itself, whatever [FromStruct] is given: the
    argument is not looked at, so it need not even be a struct. *)
Theorem FromStruct_without_placeholders `{Strconv} (t : string) (s : any) :
  (∀ n, "{" +:+ n +:+ "}" ∉ split t) →
  Strict.FromStruct (Strict.New t) s = inr t.
Proof.
  intros Hno. unfold Strict.FromStruct. simpl.
  rewrite (FromStruct_loop_Forall2 _ _ (split t)).
  - unfold split. rewrite Join_Split. f_equal.
    destruct (TrimPrefix_slash t) as [(r & Ht & ->)|[Hpre ->]].
    + replace (Strings.HasPrefix t "/") with true; [done|].
      symmetry. apply HasPrefix_spec. by exists r.
    + by rewrite Hpre.
  - apply Forall2_fmap_l, Forall_Forall2_diag, Forall_forall.
    intros tok Htok. unfold compose, Strict.new_part.
    destruct (braced tok) eqn:Hb; [|done].
    apply braced_spec in Hb as [n ->]. by destruct (Hno n).
Qed.

Lemma FromStruct_without_placeholders_witness :
  @Strict.FromStruct go_strconv (Strict.New "/api/v1/users") ANil
  = inr "/api/v1/users".
Proof.
  apply (@FromStruct_without_placeholders go_strconv).
  intros n Hin. vm_compute in Hin.
  repeat (apply elem_of_cons in Hin as [Hin|Hin]; [discriminate Hin|]).
  by apply elem_of_nil in Hin.
Defined.

Lemma structField_loop_not_found `{Strconv} fs name :
  Forall (λ fld, TagGet fld ≠ name) fs →
  Strict.structField_loop fs name = inl (ErrFieldNotFound name).
Proof.
  induction 1 as [|fld fs Hfld _ IH]; [done|]. simpl.
  by rewrite decide_False.
Qed.

(** X9.  [FromStruct] fails with "field not found" for the first variable
    of the template that no field of the struct carries as its tag, once
    the variables before it have been rendered; a field without a tag
    never stands in for a variable. *)
Theorem FromStruct_field_not_found `{Strconv} (f : Strict.Format)
    (fs : list StructField) (pre post : list Strict.part) (p : Strict.part)
    (vals : list string) :
  Strict.parts f = pre ++ p :: post →
  Strict.FromStruct_loop pre (AStruct fs) = inr vals →
  Strict.variable p ≠ "" →
  Forall (λ fld, Tag fld ≠ Some (Strict.variable p)) fs →
  Strict.FromStruct f (AStruct fs) = inl (ErrFieldNotFound (Strict.variable p)).
Proof.
  intros Hparts Hpre Hv Hfs. unfold Strict.FromStruct. rewrite Hparts.
  assert (Strict.structField (AStruct fs) (Strict.variable p)
          = inl (ErrFieldNotFound (Strict.variable p))) as Hp.
  { simpl. apply structField_loop_not_found.
    eapply Forall_impl; [exact Hfs|]. intros fld Hfld. simpl in Hfld.
    unfold TagGet. destruct (Tag fld) as [tag|]; simpl; congruence. }
  assert (Strict.FromStruct_loop (pre ++ p :: post) (AStruct fs)
          = inl (ErrFieldNotFound (Strict.variable p))) as ->; [|done].
  clear Hparts. revert vals Hpre.
  induction pre as [|q pre IH]; intros vals Hpre.
  - simpl. rewrite decide_True by done. simpl in Hp. by rewrite Hp.
  - simpl in *. case_decide.
    + destruct (Strict.structField_loop fs (Strict.variable q)); [done|].
      destruct (Strict.FromStruct_loop pre (AStruct fs)) as [|vs]; [done|].
      by rewrite (IH vs).
    + destruct (Strict.FromStruct_loop pre (AStruct fs)) as [|vs]; [done|].
      by rewrite (IH vs).
Qed.

Lemma FromStruct_field_not_found_witness :
  @Strict.FromStruct go_strconv (Strict.New "/a/{a}/b/{b}")
    (AStruct [ MkField "A" (Some "a") true reflect.String (VString "abc");
               MkField "X" None true reflect.String (VString "x") ])
  = inl (ErrFieldNotFound "b").
Proof.
  apply (@FromStruct_field_not_found go_strconv (Strict.New "/a/{a}/b/{b}")
           [ MkField "A" (Some "a") true reflect.String (VString "abc");
             MkField "X" None true reflect.String (VString "x") ]
           [Strict.Static "a"; Strict.Variable_ "a"; Strict.Static "b"] []
           (Strict.Variable_ "b") ["a"; "abc"; "b"]).
  - vm_compute. reflexivity.
  - vm_compute. reflexivity.
  - discriminate.
  - repeat constructor; discriminate.
Defined.

(** What a returning loop leaves behind: the fields keep their tags and
    their visibility, and every unexported one has the empty tag. *)
Lemma bindField_meta `{Strconv} m ef ef' :
  bindField m ef = inr ef' →
  TagGet ef' = TagGet ef ∧ exported ef' = exported ef ∧
  (exported ef = false → TagGet ef = "").
Proof.
  unfold bindField, CanSet. destruct (exported ef) eqn:Hex; simpl.
  - destruct (m !! TagGet ef) as [v|]; [|by intros [= <-]].
    destruct (kind ef);
      repeat lazymatch goal with
             | |- match ?o with Some _ => _ | None => _ end = _ → _ =>
                 destruct o; [|done]
             end;
      by intros [= <-].
  - case_decide as Htag; [done|]. by intros [= <-].
Qed.

Lemma bindFields_no_private_tag `{Strconv} m fs fs' :
  bindFields m fs = (fs', None) →
  Forall (λ fld, exported fld = false → TagGet fld = "") fs'.
Proof.
  revert fs'. induction fs as [|ef fs IH]; intros fs'; simpl.
  { intros [= <-]. constructor. }
  destruct (bindField m ef) as [e|ef'] eqn:Hef; [done|].
  destruct (bindFields m fs) as [fs0 e0] eqn:Hfs. intros [= <- ->].
  apply bindField_meta in Hef as (Htag & Hex & Hpriv).
  constructor; [|by apply IH]. rewrite Htag, Hex. exact Hpriv.
Qed.

(** X10.  [FromStruct] panics when the field it reads for a variable is
    unexported.  It cannot on a struct that [ToStruct] has accepted:
    [ToStruct] returns an error for every unexported field with a tag, so
    after a call without error every field a variable can name is exported. *)
Theorem no_panic_after_ToStruct `{Strconv} (f : Strict.Format) (s : string)
    (fs fs' : list StructField) :
  Strict.ToStruct f s (APtr (AStruct fs)) = (APtr (AStruct fs'), None) →
  ∀ (g : Strict.Format) (msg : string),
    Strict.FromStruct g (AStruct fs') ≠ inl (Panic msg).
Proof.
  unfold Strict.ToStruct. destruct (Strict.ToMap f s) as [e|m]; [done|].
  rewrite bindStruct_fields. intros [= <- Herr] g msg.
  destruct (bindFields m fs) as [fs' e] eqn:Hfs. simpl in *. subst e.
  apply bindFields_no_private_tag in Hfs.
  assert (∀ name, name ≠ "" →
            Strict.structField_loop fs' name ≠ inl (Panic msg)) as Hfield.
  { intros name Hname. induction Hfs as [|fld fs0 Hfld _ IH]; [done|]. simpl.
    case_decide as Htag; [|done].
    destruct (exported fld); [done|]. destruct Hname.
    rewrite <-Htag. by apply Hfld. }
  unfold Strict.FromStruct.
  assert (Strict.FromStruct_loop (Strict.parts g) (AStruct fs') ≠ inl (Panic msg))
    as Hloop.
  { induction (Strict.parts g) as [|p ps IH]; [done|]. simpl.
    case_decide as Hv.
    - pose proof (Hfield _ Hv) as Hp.
      destruct (Strict.structField_loop fs' (Strict.variable p)) as [e|v];
        [congruence|].
      destruct (Strict.FromStruct_loop ps (AStruct fs')); [congruence|done].
    - destruct (Strict.FromStruct_loop ps (AStruct fs')); [congruence|done]. }
  destruct (Strict.FromStruct_loop (Strict.parts g) (AStruct fs'));
    [congruence|done].
Qed.

Lemma no_panic_after_ToStruct_witness :
  @Strict.ToStruct go_strconv (Strict.New "/a/{a}") "/a/abc"
    (APtr (AStruct [ MkField "A" (Some "a") true reflect.String (VString "");
                     MkField "hidden" None false reflect.Int (VInt 7) ]))
  = (APtr (AStruct [ MkField "A" (Some "a") true reflect.String (VString "abc");
                     MkField "hidden" None false reflect.Int (VInt 7) ]), None) ∧
  ∀ (g : Strict.Format) (msg : string),
    @Strict.FromStruct go_strconv g
      (AStruct [ MkField "A" (Some "a") true reflect.String (VString "abc");
                 MkField "hidden" None false reflect.Int (VInt 7) ])
    ≠ inl (Panic msg).
Proof.
  assert (@Strict.ToStruct go_strconv (Strict.New "/a/{a}") "/a/abc"
            (APtr (AStruct [ MkField "A" (Some "a") true reflect.String (VString "");
                             MkField "hidden" None false reflect.Int (VInt 7) ]))
          = (APtr (AStruct [ MkField "A" (Some "a") true reflect.String (VString "abc");
                             MkField "hidden" None false reflect.Int (VInt 7) ]), None))
    as Hrun by (vm_compute; reflexivity).
  split; [exact Hrun|].
  exact (@no_panic_after_ToStruct go_strconv _ _ _ _ Hrun).
Defined.

(** ** Longer paths *)

(** Appending a slash and more text to a non-empty path appends the pieces
    of that text to the tokens of the path. *)
Lemma split_app_slash (p e : string) :
  p ≠ "" → split (p +:+ String "/" e) = split p ++ Strings.Split e "/".
Proof.
  intros Hp. unfold split.
  destruct (TrimPrefix_slash p) as [(r & -> & ->)|[Hno ->]].
  - rewrite app_assoc, TrimPrefix_app. apply Split_app.
  - rewrite TrimPrefix_not; [apply Split_app|].
    destruct p as [|a p]; [done|].
    rewrite app_cons, HasPrefix_byte. by rewrite HasPrefix_byte in Hno.
Qed.

Lemma bindings_app_r vars toks more m :
  length vars ≤ length toks →
  bindings vars (toks ++ more) m = bindings vars toks m.
Proof.
  revert toks m. induction vars as [|x vars IH]; intros toks m Hlen.
  { done. }
  destruct toks as [|s toks]; simpl in *; [lia|]. apply IH. lia.
Qed.

(** X11.  A non-empty path with a slash at its end has one more token, the
    empty one: the variable at that index is bound to the empty string
    rather than left out of the map. *)
Theorem trailing_slash_binds_empty (p : string) :
  p ≠ "" →
  split (p +:+ "/") = split p ++ [""] ∧
  (∀ t k, split t !! length (split p) = Some ("{" +:+ k +:+ "}") →
          Lenient.ToMap (Lenient.New t) (p +:+ "/") !! k = Some "") ∧
  (∀ (f : Strict.Format) q m,
     Strict.parts f !! length (split p) = Some q → Strict.variable q ≠ "" →
     Strict.ToMap f (p +:+ "/") = inr m → m !! Strict.variable q = Some "").
Proof.
  intros Hp.
  assert (split (p +:+ "/") = split p ++ [""]) as Hsplit
    by (by rewrite (split_app_slash p "")).
  split; [done|]. split.
  - intros t k Htok. rewrite Lenient_ToMap_bindings, Hsplit.
    apply bindings_empty_lookup. exists (length (split p)).
    rewrite list_lookup_fmap, Htok. simpl.
    repeat split.
    + f_equal. by apply name_of_spec.
    + by rewrite lookup_app_r, Nat.sub_diag.
    + intros j ?. rewrite List.length_app. simpl. lia.
  - intros f q m Hq Hv ->%Strict_ToMap_bindings. rewrite Hsplit.
    apply bindings_empty_lookup. exists (length (split p)).
    rewrite list_lookup_fmap, Hq. simpl.
    repeat split.
    + f_equal. by apply var_of_spec.
    + by rewrite lookup_app_r, Nat.sub_diag.
    + intros j ?. rewrite List.length_app. simpl. lia.
Qed.

Lemma trailing_slash_binds_empty_witness :
  Lenient.ToMap (Lenient.New "/items/{id}") ("/items" +:+ "/") !! "id" = Some "".
Proof.
  apply (proj1 (proj2 (trailing_slash_binds_empty "/items" ltac:(discriminate)))).
  vm_compute. reflexivity.
Defined.

(** X12.  Whatever follows a path that already has as many segments as the
    template is ignored: appending a slash and any text, slashes included,
    gives the same map, and in the strict revision a map exactly when the
    shorter path gives it. *)
Theorem extra_segments_are_ignored (p extra : string) :
  p ≠ "" →
  (∀ t, length (split t) ≤ length (split p) →
        Lenient.ToMap (Lenient.New t) (p +:+ String "/" extra) =
        Lenient.ToMap (Lenient.New t) p) ∧
  (∀ (f : Strict.Format) m,
     length (Strict.parts f) ≤ length (split p) →
     (Strict.ToMap f (p +:+ String "/" extra) = inr m ↔
      Strict.ToMap f p = inr m)).
Proof.
  intros Hp. split.
  - intros t Hlen. rewrite !Lenient_ToMap_bindings, (split_app_slash p extra Hp).
    apply bindings_app_r. by rewrite length_fmap.
  - intros f m Hlen. unfold Strict.ToMap.
    rewrite (Strict_loop_take_toks f (p +:+ String "/" extra)),
            (Strict_loop_take_toks f p), Nat.sub_0_r.
    rewrite (split_app_slash p extra Hp), take_app_le by done.
    split; apply Strict_loop_inr_path.
Qed.

Lemma extra_segments_are_ignored_witness :
  Lenient.ToMap (Lenient.New "/items/{id}") ("/items/123" +:+ String "/" "extra/more")
  = Lenient.ToMap (Lenient.New "/items/{id}") "/items/123".
Proof.
  apply (proj1 (extra_segments_are_ignored "/items/123" "extra/more"
                  ltac:(discriminate))).
  vm_compute. lia.
Defined.
